(** * pdf_vertical_ocr_arial: split pages, OCR each half, clean, re-flow

    A shallow embedding of [src/pdf_vertical_ocr_arial.py] and the
    properties of its text normalizer, corrector, layout engine and
    page loop.

    Conventions of the embedding.
    - A Python [str] is a list of Unicode code points ([N]).
    - The external engines are parameters. A call on LanguageTool,
      pyspellchecker or pytesseract returns a [result]: a value or a
      raised exception. Rendering a clip, reportlab's [simpleSplit]
      and the canvas calls are taken to return.
    - The calls made on the PDF canvas and on the external engines are
      recorded, in call order, in an event log that survives an
      exception.
    - Coordinates are exact rationals ([Q]); the Python code computes
      them in binary64. *)

From Stdlib Require Import String Ascii.
From Stdlib Require Import List Bool Arith NArith ZArith QArith Lia Lqa.
Import ListNotations.

Close Scope Q_scope.
Local Open Scope nat_scope.
Local Open Scope list_scope.

(* ================================================================== *)
(** ** Python strings *)

Module PyStr.

Definition char := N.
Definition str := list char.

(** Code points the program names. *)
Definition TAB : char := 9%N.
Definition NL : char := 10%N.
Definition CR : char := 13%N.
Definition SP : char := 32%N.
Definition HYPHEN : char := 45%N.

(** A literal written with the characters of a Rocq string, one code
    point per byte (enough for the ASCII literals used below). *)
Definition lit (s : string) : str :=
  List.map N_of_ascii (list_ascii_of_string s).

Definition str_eqb (a b : str) : bool :=
  if list_eq_dec N.eq_dec a b then true else false.

(** [str.isspace] for one code point: the set CPython's
    [Py_UNICODE_ISSPACE] accepts; [strip], [rstrip] and [split] without
    arguments use it. *)
Definition isspace (c : char) : bool :=
  ((9 <=? c) && (c <=? 13) || (28 <=? c) && (c <=? 32)
   || (c =? 133) || (c =? 160) || (c =? 5760)
   || (8192 <=? c) && (c <=? 8202)
   || (c =? 8232) || (c =? 8233) || (c =? 8239) || (c =? 8287)
   || (c =? 12288))%N.

(** Line boundaries of [str.splitlines] other than CR (CR LF counts as
    one boundary and is handled apart). *)
Definition islinebreak (c : char) : bool :=
  ((c =? 10) || (c =? 11) || (c =? 12) || (c =? 28) || (c =? 29)
   || (c =? 30) || (c =? 133) || (c =? 8232) || (c =? 8233))%N.

Fixpoint dropWhile {A} (p : A -> bool) (l : list A) : list A :=
  match l with
  | [] => []
  | x :: r => if p x then dropWhile p r else l
  end.

Fixpoint takeWhile {A} (p : A -> bool) (l : list A) : list A :=
  match l with
  | [] => []
  | x :: r => if p x then x :: takeWhile p r else []
  end.

Definition lstrip (s : str) : str := dropWhile isspace s.
Definition rstrip (s : str) : str := rev (dropWhile isspace (rev s)).
Definition strip (s : str) : str := rstrip (lstrip s).

(** [not text or text.strip() == ""] *)
Definition is_blank (text : str) : bool :=
  match text with
  | [] => true
  | _ => match strip text with [] => true | _ => false end
  end.

(** [text.split()]: maximal runs of non-whitespace characters.
    [cur] holds the token being read, in reverse. *)
Fixpoint split_from (cur : str) (s : str) : list str :=
  match s with
  | [] => match cur with [] => [] | _ => [rev cur] end
  | c :: r =>
      if isspace c
      then match cur with
           | [] => split_from [] r
           | _ => rev cur :: split_from [] r
           end
      else split_from (c :: cur) r
  end.

Definition split (s : str) : list str := split_from [] s.

(** [text.splitlines()]: the text cut at every line boundary; a final
    boundary opens no further (empty) line. *)
Fixpoint splitlines_from (cur : str) (s : str) : list str :=
  match s with
  | [] => match cur with [] => [] | _ => [rev cur] end
  | c :: r =>
      if (c =? CR)%N
      then match r with
           | d :: r' =>
               if (d =? NL)%N
               then rev cur :: splitlines_from [] r'
               else rev cur :: splitlines_from [] r
           | [] => [rev cur]
           end
      else if islinebreak c
           then rev cur :: splitlines_from [] r
           else splitlines_from (c :: cur) r
  end.

Definition splitlines (s : str) : list str := splitlines_from [] s.

(** [sep.join(parts)] *)
Fixpoint join (sep : str) (parts : list str) : str :=
  match parts with
  | [] => []
  | [p] => p
  | p :: rest => p ++ sep ++ join sep rest
  end.

(** The character classes of the Unicode database that [str.isalpha]
    and [str.isalnum] consult. [isalnum] is defined from them as
    CPython does. *)
Record unicode_db := {
  isalpha : char -> bool;
  isdecimal : char -> bool;
  isdigit : char -> bool;
  isnumeric : char -> bool
}.

Definition isalnum (db : unicode_db) (c : char) : bool :=
  isalpha db c || isdecimal db c || isdigit db c || isnumeric db c.

(** The classes restricted to the Latin-1 block (code points below
    256), as the Unicode database has them there; used to evaluate the
    program on concrete Spanish text. *)
Definition latin1_db : unicode_db := {|
  isalpha := fun c =>
    ((65 <=? c) && (c <=? 90) || (97 <=? c) && (c <=? 122)
     || (c =? 170) || (c =? 181) || (c =? 186)
     || (192 <=? c) && (c <=? 214) || (216 <=? c) && (c <=? 246)
     || (248 <=? c) && (c <=? 255))%N;
  isdecimal := fun c => ((48 <=? c) && (c <=? 57))%N;
  isdigit := fun c =>
    ((48 <=? c) && (c <=? 57) || (c =? 178) || (c =? 179) || (c =? 185))%N;
  isnumeric := fun c =>
    ((48 <=? c) && (c <=? 57) || (c =? 178) || (c =? 179) || (c =? 185)
     || (188 <=? c) && (c <=? 190))%N
|}.

End PyStr.

Import PyStr.

(* ================================================================== *)
(** ** Regular-expression substitution

    The fragment of Python's [re] that the normalizer uses: a pattern
    is a sequence of items, each a character class taken once or a
    greedy repetition [p{n,}] of a class. Matching is the backtracking
    search of [re]: a repetition takes as many characters as it can and
    gives them back one at a time while the rest of the pattern fails. *)

Module Re.

Inductive item :=
| One (p : char -> bool)
| AtLeast (n : nat) (p : char -> bool).

Definition pattern := list item.

(** [rep_match k p n s]: match [p{n,}] at the start of [s], then the
    continuation [k]; the answer is the text left after the match. *)
Fixpoint rep_match (k : str -> option str) (p : char -> bool)
    (n : nat) (s : str) : option str :=
  let stop := match n with O => k s | S _ => None end in
  match s with
  | [] => stop
  | c :: r =>
      if p c
      then match rep_match k p (pred n) r with
           | Some rest => Some rest
           | None => stop
           end
      else stop
  end.

Fixpoint match_here (pat : pattern) (s : str) {struct pat} : option str :=
  match pat with
  | [] => Some s
  | One p :: pat' =>
      match s with
      | c :: r => if p c then match_here pat' r else None
      | [] => None
      end
  | AtLeast n p :: pat' => rep_match (match_here pat') p n s
  end.

(** [re.sub(pat, repl, s)] for a pattern that matches no empty string
    (all patterns below): scan left to right; at a match emit [repl]
    and resume after the matched text, otherwise copy one character.
    [skip] counts the characters of the current match still to pass. *)
Fixpoint sub_from (pat : pattern) (repl : str) (skip : nat) (s : str) : str :=
  match s with
  | [] => []
  | c :: r =>
      match skip with
      | S k => sub_from pat repl k r
      | O =>
          match match_here pat s with
          | Some rest =>
              repl ++ sub_from pat repl (length r - length rest) r
          | None => c :: sub_from pat repl 0 r
          end
      end
  end.

Definition sub (pat : pattern) (repl : str) (s : str) : str :=
  sub_from pat repl 0 s.

End Re.

(* ================================================================== *)
(** ** Text normalizer: the four rewrites of [correct_spanish_text] *)

Module Normalizer.

Definition is_hyphen (c : char) : bool := (c =? HYPHEN)%N.
Definition is_nl (c : char) : bool := (c =? NL)%N.
Definition is_sp (c : char) : bool := (c =? SP)%N.
(** the class [[ \t]] *)
Definition is_sp_tab (c : char) : bool := (c =? SP)%N || (c =? TAB)%N.

(** [r"-\n"] *)
Definition pat_hyphen_break : Re.pattern := [Re.One is_hyphen; Re.One is_nl].
(** [r"[ \t]+\n"] *)
Definition pat_trailing_blank : Re.pattern :=
  [Re.AtLeast 1 is_sp_tab; Re.One is_nl].
(** [r"\n{3,}"] *)
Definition pat_breaks : Re.pattern := [Re.AtLeast 3 is_nl].
(** [r"[ ]{2,}"] *)
Definition pat_spaces : Re.pattern := [Re.AtLeast 2 is_sp].

Definition rule1 (text : str) : str := Re.sub pat_hyphen_break [] text.
Definition rule2 (text : str) : str := Re.sub pat_trailing_blank [NL] text.
Definition rule3 (text : str) : str := Re.sub pat_breaks [NL; NL] text.
Definition rule4 (text : str) : str := Re.sub pat_spaces [SP] text.

(** Lines 61-64 of the source, in order. *)
Definition normalize (text : str) : str :=
  let text := rule1 text in
  let text := rule2 text in
  let text := rule3 text in
  let text := rule4 text in
  text.

(** *** The same rewrites as one-pass scans

    Each rewrite deletes characters at places that a scan with a small
    state can recognise; these forms carry the proofs and are shown
    equal to the regular-expression forms below. *)

(** delete every hyphen that a line break follows, and that break *)
Fixpoint join_hyphen (s : str) : str :=
  match s with
  | [] => []
  | c :: r =>
      match r with
      | d :: r' =>
          if is_hyphen c && is_nl d then join_hyphen r' else c :: join_hyphen r
      | [] => [c]
      end
  end.

(** the text goes on with blanks and then a line break *)
Definition before_nl (s : str) : bool :=
  match dropWhile is_sp_tab s with
  | c :: _ => is_nl c
  | [] => false
  end.

(** delete every blank of a blank run that a line break follows *)
Fixpoint strip_trailing (s : str) : str :=
  match s with
  | [] => []
  | c :: r =>
      if is_sp_tab c && before_nl r then strip_trailing r
      else c :: strip_trailing r
  end.

(** delete every line break that at least two line breaks precede;
    [k] is the number of line breaks just passed, counted up to 2 *)
Fixpoint squeeze_nl (k : nat) (s : str) : str :=
  match s with
  | [] => []
  | c :: r =>
      if is_nl c
      then if k <? 2 then c :: squeeze_nl (S k) r else squeeze_nl 2 r
      else c :: squeeze_nl 0 r
  end.

(** delete every space that a space precedes; [b] tells whether the
    character just passed was a space *)
Fixpoint squeeze_sp (b : bool) (s : str) : str :=
  match s with
  | [] => []
  | c :: r =>
      if is_sp c
      then if b then squeeze_sp true r else c :: squeeze_sp true r
      else c :: squeeze_sp false r
  end.

(** *** Shapes of text *)

(** no hyphen immediately followed by a line break *)
Fixpoint no_hyphen_break (s : str) : bool :=
  match s with
  | [] => true
  | c :: r =>
      match r with
      | d :: _ => negb (is_hyphen c && is_nl d) && no_hyphen_break r
      | [] => true
      end
  end.

(** no blank immediately followed by a line break; [pb]: the character
    just passed was a blank *)
Fixpoint no_blank_break (pb : bool) (s : str) : bool :=
  match s with
  | [] => true
  | c :: r =>
      if is_nl c then negb pb && no_blank_break false r
      else no_blank_break (is_sp_tab c) r
  end.

(** no three line breaks in a row; [k]: line breaks just passed *)
Fixpoint no_triple_break (k : nat) (s : str) : bool :=
  match s with
  | [] => true
  | c :: r =>
      if is_nl c then (k <? 2) && no_triple_break (S k) r
      else no_triple_break 0 r
  end.

(** no two spaces in a row; [b]: the character just passed was a space *)
Fixpoint no_double_space (b : bool) (s : str) : bool :=
  match s with
  | [] => true
  | c :: r =>
      if is_sp c then negb b && no_double_space true r
      else no_double_space false r
  end.

(** the shape that one pass of rules 2 to 4 establishes *)
Definition settled (s : str) : bool :=
  no_blank_break false s && no_triple_break 0 s && no_double_space false s.

Definition ends_with_sp (s : str) : bool := is_sp (last s 0%N).
Definition starts_with_sp (s : str) : bool := is_sp (hd 0%N s).

End Normalizer.

(* ================================================================== *)
(** ** Exceptions *)

Module PyExn.

(** A raised exception: an instance of [Exception], which the
    program's [except Exception] clauses catch, or of another
    [BaseException] (an interrupt, a system exit), which they let
    through. *)
Inductive exn :=
| Exception (tag : nat)
| BaseException (tag : nat).

Inductive result (A : Type) :=
| Ok (a : A)
| Raise (e : exn).

Arguments Ok {A} a.
Arguments Raise {A} e.

Definition IndexError : exn := Exception 0.

End PyExn.

Import PyExn.

(* ================================================================== *)
(** ** Corrector: [setup_spell_tools] and [correct_spanish_text] *)

Module Corrector.

Section Backends.

(** what [LanguageTool.check] returns *)
Variable Matches : Type.

(** the Unicode database behind [str.isalpha] and [str.isalnum] *)
Variable db : unicode_db.

(** [language_tool_python.LanguageTool]: the method [check] *)
Record LanguageTool := { check : str -> result Matches }.

(** [spellchecker.SpellChecker]: the method [correction], which
    answers a word or [None] *)
Record SpellChecker := { correction : str -> result (option str) }.

(** [language_tool_python.utils.correct] *)
Variable utils_correct : str -> Matches -> result str.

(** The module's global variables. *)
Record globals := {
  USE_LT : bool;
  lt_tool : option LanguageTool;
  spell : option SpellChecker
}.

(** Lines 26-28. *)
Definition initial_globals : globals :=
  {| USE_LT := true; lt_tool := None; spell := None |}.

(** [setup_spell_tools]. [new_lt] is the outcome of importing
    [language_tool_python] and constructing [LanguageTool('es')];
    [new_spell] that of importing [spellchecker] and constructing
    [SpellChecker(language="es")]. *)
Definition setup_spell_tools (new_lt : result LanguageTool)
    (new_spell : result SpellChecker) (g : globals) : result globals :=
  match new_lt with
  | Ok t => Ok {| USE_LT := true; lt_tool := Some t; spell := spell g |}
  | Raise (Exception _) =>
      match new_spell with
      | Ok s =>
          Ok {| USE_LT := false; lt_tool := lt_tool g; spell := Some s |}
      | Raise (Exception _) =>
          Ok {| USE_LT := false; lt_tool := lt_tool g; spell := spell g |}
      | Raise e => Raise e
      end
  | Raise e => Raise e
  end.

(** Lines 67-73, the [try] block. [Some r]: the function leaves with
    [r] (a value returned, or an exception that [except Exception]
    does not catch); [None]: control goes on below the block. *)
Definition try_language_tool (g : globals) (text : str)
    : option (result str) :=
  match lt_tool g with
  | None => None
  | Some tool =>
      match check tool text with
      | Ok matches =>
          match utils_correct text matches with
          | Ok corrected => Some (Ok corrected)
          | Raise (Exception _) => None
          | Raise e => Some (Raise e)
          end
      | Raise (Exception _) => None
      | Raise e => Some (Raise e)
      end
  end.

(** Lines 82-83: [while core and not core[0].isalnum()]. *)
Fixpoint strip_prefix (prefix core : str) : str * str :=
  match core with
  | [] => (prefix, core)
  | c :: rest =>
      if negb (isalnum db c) then strip_prefix (prefix ++ [c]) rest
      else (prefix, core)
  end.

(** Lines 84-85: [while core and not core[-1].isalnum()], on the core
    read from its end ([rcore] is the core reversed). *)
Fixpoint strip_suffix_rev (suffix rcore : str) : str * str :=
  match rcore with
  | [] => (suffix, rcore)
  | c :: rest =>
      if negb (isalnum db c) then strip_suffix_rev (c :: suffix) rest
      else (suffix, rcore)
  end.

Definition strip_suffix (suffix core : str) : str * str :=
  let (suffix, rcore) := strip_suffix_rev suffix (rev core) in
  (suffix, rev rcore).

(** Lines 79-89: the body of the token loop; the answer is the token
    appended to [tokens]. *)
Definition correct_token (sp : SpellChecker) (tok : str) : result str :=
  if existsb (isalpha db) tok then
    let (prefix, core) := strip_prefix [] tok in
    let (suffix, core) := strip_suffix [] core in
    match core with
    | [] => Ok tok
    | _ :: _ =>
        match correction sp core with
        | Raise e => Raise e
        | Ok suggestion =>
            match suggestion with
            | Some ((_ :: _) as s) => Ok (prefix ++ s ++ suffix)
            | _ => Ok tok
            end
        end
    end
  else Ok tok.

(** Lines 77-90: the loop over [text.split()]. *)
Fixpoint correct_tokens (sp : SpellChecker) (tokens : list str)
    (toks : list str) : result (list str) :=
  match toks with
  | [] => Ok tokens
  | tok :: rest =>
      match correct_token sp tok with
      | Raise e => Raise e
      | Ok tok' => correct_tokens sp (tokens ++ [tok']) rest
      end
  end.

(** Lines 76-91. *)
Definition dictionary_correct (sp : SpellChecker) (text : str) : result str :=
  match correct_tokens sp [] (split text) with
  | Raise e => Raise e
  | Ok tokens => Ok (join [SP] tokens)
  end.

Definition correct_spanish_text (g : globals) (text : str) : result str :=
  if is_blank text then Ok text
  else
    let text := Normalizer.normalize text in
    match try_language_tool g text with
    | Some r => r
    | None =>
        match spell g with
        | Some sp => dictionary_correct sp text
        | None => Ok text
        end
    end.

(** *** The words of the specification for a token's parts *)

Definition non_alnum (c : char) : bool := negb (isalnum db c).

(** the leading run of non-alphanumeric characters *)
Definition leading_run (tok : str) : str := takeWhile non_alnum tok.

(** the trailing run of non-alphanumeric characters *)
Definition trailing_run (tok : str) : str :=
  rev (takeWhile non_alnum (rev tok)).

(** what lies between the two runs *)
Definition core_of (tok : str) : str :=
  rev (dropWhile non_alnum (rev (dropWhile non_alnum tok))).

End Backends.

Arguments check {Matches} _ _.
Arguments lt_tool {Matches} _.
Arguments spell {Matches} _.
Arguments USE_LT {Matches} _.

End Corrector.

(* ================================================================== *)
(** ** Calls on the outside world *)

Module Effects.

(** [fitz.Matrix(a, b)]: scaling by [a] along x and [b] along y *)
Record Matrix := { scale_x : Q; scale_y : Q }.

(** [fitz.Rect(x0, y0, x1, y1)] *)
Record Rect := { x0 : Q; y0 : Q; x1 : Q; y1 : Q }.

(** A bitmap, known by the rendering that made it:
    [doc[page].get_pixmap(matrix=, clip=, alpha=)]. *)
Record Pixmap := {
  pix_page : nat;
  pix_matrix : Matrix;
  pix_clip : Rect;
  pix_alpha : bool
}.

(** The calls the program makes on PyMuPDF, on pytesseract and on the
    reportlab canvas. ([print] is left out.) *)
Inductive event :=
| GetPixmap (pix : Pixmap)
| ImageToString (pix : Pixmap) (lang : str)
| SetFont (name : str) (size : Q)
| DrawString (x y : Q) (s : str)
| ShowPage
| Save.

(** A computation that appends to the log of calls and returns or
    raises; the log is kept when it raises. *)
Definition M (A : Type) := list event -> list event * result A.

Definition ret {A} (a : A) : M A := fun log => (log, Ok a).

Definition bind {A B} (m : M A) (k : A -> M B) : M B :=
  fun log =>
    match m log with
    | (log', Ok a) => k a log'
    | (log', Raise e) => (log', Raise e)
    end.

Definition tell (evs : list event) : M unit :=
  fun log => (log ++ evs, Ok tt).

Definition lift {A} (r : result A) : M A := fun log => (log, r).

(** [for x in xs: body(x)] *)
Fixpoint for_each {A} (xs : list A) (body : A -> M unit) : M unit :=
  match xs with
  | [] => ret tt
  | x :: rest => bind (body x) (fun _ => for_each rest body)
  end.

(** the calls that put something on the canvas or seal a page *)
Definition is_drawing (e : event) : bool :=
  match e with
  | SetFont _ _ | DrawString _ _ _ | ShowPage => true
  | _ => false
  end.

(** the output pages sealed so far *)
Definition pages (log : list event) : nat :=
  length (filter (fun e => match e with ShowPage => true | _ => false end) log).

End Effects.

Import Effects.

Notation "x <- m ;; k" := (bind m (fun x => k))
  (at level 61, m at next level, right associativity).
Notation "m ;;; k" := (bind m (fun _ => k))
  (at level 61, right associativity).

(* ================================================================== *)
(** ** Layout engine: [write_wrapped_page] *)

Module Layout.

Local Open Scope Q_scope.

(** [reportlab.lib.units] and [reportlab.lib.pagesizes.A4], in points *)
Definition inch : Q := 72.
Definition cm : Q := inch / 2.54.
Definition mm : Q := cm * 0.1.
Definition A4 : Q * Q := (210 * mm, 297 * mm).

Definition Qltb (x y : Q) : bool := negb (Qle_bool y x).

Section Page.

(** [reportlab.lib.utils.simpleSplit(text, fontName, fontSize, maxWidth)] *)
Variable simpleSplit : str -> str -> Q -> Q -> list str.

Variable font_name : str.
Variable font_size : Q.
(** [margins = (left, right, top, bottom)] *)
Variable margins : Q * Q * Q * Q.

Definition left : Q := let '(l, _, _, _) := margins in l.
Definition right : Q := let '(_, r, _, _) := margins in r.
Definition top : Q := let '(_, _, t, _) := margins in t.
Definition bottom : Q := let '(_, _, _, b) := margins in b.
Definition page_w : Q := fst A4.
Definition page_h : Q := snd A4.
Definition usable_w : Q := page_w - left - right.
Definition line_h : Q := font_size * 1.27.

(** [y -= line_h], then lines 147-148 (and 155-156): below the bottom
    margin the page is sealed and the cursor goes back to the top. *)
Definition advance (y : Q) : list event * Q :=
  let y := y - line_h in
  if Qltb y bottom
  then ([ShowPage; SetFont font_name font_size], page_h - top)
  else ([], y).

(** Lines 152-156: the loop over the segments of one wrapped line. *)
Fixpoint draw_lines (w_lines : list str) (y : Q) : list event * Q :=
  match w_lines with
  | [] => ([], y)
  | w_line :: rest =>
      let (ev1, y1) := advance y in
      let (ev2, y2) := draw_lines rest y1 in
      (DrawString left y w_line :: ev1 ++ ev2, y2)
  end.

(** Lines 142-156: the loop over [text.splitlines()]. *)
Fixpoint layout_lines (raw_lines : list str) (y : Q) : list event :=
  match raw_lines with
  | [] => []
  | raw_line :: rest =>
      let line := rstrip raw_line in
      match strip line with
      | [] =>
          let (ev, y') := advance y in
          ev ++ layout_lines rest y'
      | _ :: _ =>
          let (ev, y') :=
            draw_lines (simpleSplit line font_name font_size usable_w) y in
          ev ++ layout_lines rest y'
      end
  end.

(** The calls [write_wrapped_page] makes on the canvas. *)
Definition write_wrapped_page (text : str) : list event :=
  SetFont font_name font_size ::
  (if is_blank text then [ShowPage]
   else layout_lines (splitlines text) (page_h - top) ++ [ShowPage]).

(** *** Counting cursor moves *)

(** the cursor moves that laying out [raw_lines] makes: one per blank
    line and one per segment of a wrapped line *)
Fixpoint moves_of_lines (raw_lines : list str) : nat :=
  match raw_lines with
  | [] => 0%nat
  | raw_line :: rest =>
      let line := rstrip raw_line in
      match strip line with
      | [] => S (moves_of_lines rest)
      | _ :: _ =>
          (length (simpleSplit line font_name font_size usable_w)
           + moves_of_lines rest)%nat
      end
  end.

Definition moves (text : str) : nat :=
  if is_blank text then 0%nat else moves_of_lines (splitlines text).

(** the page breaks that [n] cursor moves cause from height [y] *)
Fixpoint breaks (n : nat) (y : Q) : nat :=
  match n with
  | O => 0%nat
  | S n' =>
      let (ev, y') := advance y in
      (pages ev + breaks n' y')%nat
  end.

(** the cursor after [n] moves from height [y] *)
Fixpoint cursor_after (n : nat) (y : Q) : Q :=
  match n with
  | O => y
  | S n' => cursor_after n' (snd (advance y))
  end.

(** where a [DrawString] call puts its text *)
Definition drawn_at (e : event) : option (Q * Q) :=
  match e with
  | DrawString x y _ => Some (x, y)
  | _ => None
  end.

(** a height from the bottom margin up to where the cursor starts *)
Definition in_frame (y : Q) : Prop := bottom <= y /\ y <= page_h - top.

End Page.

(** the defaults of [write_wrapped_page] *)
Definition default_margins : Q * Q * Q * Q := (50, 50, 50, 50).

(** a stand-in for [simpleSplit] on lines short enough to need no
    wrapping: the line is its own single segment *)
Definition one_segment : str -> str -> Q -> Q -> list str :=
  fun line _ _ _ => [line].

End Layout.

(* ================================================================== *)
(** ** Page loop: [ocr_half_pixmap] and [VerticalPDFProcessor.process] *)

Module Pipeline.

Local Open Scope Q_scope.

Section Run.

Variable Matches : Type.
Variable db : unicode_db.
Variable utils_correct : str -> Matches -> result str.
Variable simpleSplit : str -> str -> Q -> Q -> list str.

(** [pytesseract.image_to_string] on the PNG image of a bitmap *)
Variable image_to_string : Pixmap -> str -> result str.

(** the module globals as [setup_spell_tools] left them *)
Variable g : Corrector.globals Matches.

(** what the program reads of a page: [page.rect.width] and
    [page.rect.height] *)
Record Page := { rect_width : Q; rect_height : Q }.

Definition Document := list Page.

Record VerticalPDFProcessor := {
  dpi : Z;
  omit_first : bool;
  font_name : str
}.

Definition spa : str := lit "spa".

(** [ocr_half_pixmap] *)
Definition ocr_half_pixmap (pixmap : Pixmap) (lang : str) : M str :=
  tell [ImageToString pixmap lang] ;;;
  lift (image_to_string pixmap lang).

(** [page.get_pixmap(matrix=m, clip=clip, alpha=alpha)] on page [i] *)
Definition get_pixmap (i : nat) (m : Matrix) (clip : Rect) (alpha : bool)
    : M Pixmap :=
  let pix := {| pix_page := i; pix_matrix := m; pix_clip := clip;
                pix_alpha := alpha |} in
  tell [GetPixmap pix] ;;; ret pix.

Definition correct_spanish_text (text : str) : M str :=
  lift (Corrector.correct_spanish_text Matches db utils_correct g text).

Definition write_wrapped_page (text : str) (font : str) (size : Q) : M unit :=
  tell (Layout.write_wrapped_page simpleSplit font size
          Layout.default_margins text).

(** Line 192. *)
Definition scale_matrix (self : VerticalPDFProcessor) : Matrix :=
  {| scale_x := inject_Z (dpi self) / 72; scale_y := inject_Z (dpi self) / 72 |}.

Definition left_clip (page : Page) : Rect :=
  let mid_x := rect_width page / 2 in
  {| x0 := 0; y0 := 0; x1 := mid_x; y1 := rect_height page |}.

Definition right_clip (page : Page) : Rect :=
  let mid_x := rect_width page / 2 in
  {| x0 := mid_x; y0 := 0; x1 := rect_width page; y1 := rect_height page |}.

(** Lines 194-212: the body of the page loop. *)
Definition process_page (self : VerticalPDFProcessor) (doc : Document)
    (i : nat) : M unit :=
  let m := scale_matrix self in
  page <- lift (match nth_error doc i with
                | Some page => Ok page
                | None => Raise IndexError
                end) ;;
  left_pix <- get_pixmap i m (left_clip page) false ;;
  right_pix <- get_pixmap i m (right_clip page) false ;;
  left_raw <- ocr_half_pixmap left_pix spa ;;
  left_text <- correct_spanish_text left_raw ;;
  right_raw <- ocr_half_pixmap right_pix spa ;;
  right_text <- correct_spanish_text right_raw ;;
  write_wrapped_page left_text (font_name self) 11 ;;;
  write_wrapped_page right_text (font_name self) 11.

(** [range(a, b)] *)
Definition range (a b : nat) : list nat := seq a (b - a).

(** [process], from the open document on; the answer is the log of
    calls and how the method ended. *)
(** Line 187. *)
Definition start_page (self : VerticalPDFProcessor) : nat :=
  if omit_first self then 1%nat else 0%nat.

Definition process (self : VerticalPDFProcessor) (doc : Document)
    : list event * result unit :=
  (for_each (range (start_page self) (length doc)) (process_page self doc) ;;;
   tell [Save]) [].

(** *** Reading a run *)

Definition pixmap_of (self : VerticalPDFProcessor) (i : nat) (clip : Rect)
    : Pixmap :=
  {| pix_page := i; pix_matrix := scale_matrix self; pix_clip := clip;
     pix_alpha := false |}.

Definition left_pix (self : VerticalPDFProcessor) (i : nat) (page : Page)
    : Pixmap := pixmap_of self i (left_clip page).

Definition right_pix (self : VerticalPDFProcessor) (i : nat) (page : Page)
    : Pixmap := pixmap_of self i (right_clip page).

(** the text of a half: recognition, then correction *)
Definition half_text (pix : Pixmap) : result str :=
  match image_to_string pix spa with
  | Ok raw => Corrector.correct_spanish_text Matches db utils_correct g raw
  | Raise e => Raise e
  end.

(** the canvas calls that lay out one text in the style of [process] *)
Definition layout (self : VerticalPDFProcessor) (text : str) : list event :=
  Layout.write_wrapped_page simpleSplit (font_name self) 11
    Layout.default_margins text.

(** the canvas calls for input page [j], when both its halves yield
    a text *)
Definition page_layout (self : VerticalPDFProcessor) (doc : Document)
    (j : nat) : list event :=
  match nth_error doc j with
  | Some page =>
      match half_text (left_pix self j page),
            half_text (right_pix self j page) with
      | Ok left_text, Ok right_text =>
          layout self left_text ++ layout self right_text
      | _, _ => []
      end
  | None => []
  end.

(** all calls for input page [j], when both its halves yield a text *)
Definition page_calls (self : VerticalPDFProcessor) (doc : Document)
    (j : nat) : list event :=
  match nth_error doc j with
  | Some page =>
      [GetPixmap (left_pix self j page); GetPixmap (right_pix self j page);
       ImageToString (left_pix self j page) spa;
       ImageToString (right_pix self j page) spa]
      ++ page_layout self doc j
  | None => []
  end.

(** both halves of input page [j] yield a text *)
Definition page_completes (self : VerticalPDFProcessor) (doc : Document)
    (j : nat) : Prop :=
  exists page left_text right_text,
    nth_error doc j = Some page /\
    half_text (left_pix self j page) = Ok left_text /\
    half_text (right_pix self j page) = Ok right_text.

Inductive side := Left | Right.

(** the recognition engine raises [e] on one half of input page [i];
    for the right half, the left half has yielded its text before *)
Definition recognizer_raises (self : VerticalPDFProcessor) (i : nat)
    (page : Page) (s : side) (e : exn) : Prop :=
  match s with
  | Left => image_to_string (left_pix self i page) spa = Raise e
  | Right =>
      (exists left_text, half_text (left_pix self i page) = Ok left_text) /\
      image_to_string (right_pix self i page) spa = Raise e
  end.

(** the calls of a turn of the page loop up to the recognition that
    raises *)
Definition calls_before_raise (self : VerticalPDFProcessor) (i : nat)
    (page : Page) (s : side) : list event :=
  GetPixmap (left_pix self i page) :: GetPixmap (right_pix self i page)
  :: ImageToString (left_pix self i page) spa
  :: match s with
     | Left => []
     | Right => [ImageToString (right_pix self i page) spa]
     end.

(** the input pages rendered, one entry per [get_pixmap] call *)
Definition rendered (log : list event) : list nat :=
  flat_map (fun e => match e with
                     | GetPixmap pix => [pix_page pix]
                     | _ => []
                     end) log.

(** the calls made on the canvas *)
Definition on_canvas (e : event) : bool :=
  match e with
  | GetPixmap _ | ImageToString _ _ => false
  | _ => true
  end.

End Run.

End Pipeline.

(* ================================================================== *)
(** ** Concrete backends, pages and runs *)

Module Examples.

Local Open Scope Q_scope.

(** a grammar backend whose check raises on every text *)
Definition failing_tool : Corrector.LanguageTool unit :=
  {| Corrector.check := fun _ => Raise (Exception 1) |}.

(** a dictionary backend whose lookup raises on every word *)
Definition failing_checker : Corrector.SpellChecker :=
  {| Corrector.correction := fun _ => Raise (Exception 2) |}.

(** a dictionary backend that knows one misspelling *)
Definition tiny_checker : Corrector.SpellChecker :=
  {| Corrector.correction := fun w =>
       if str_eqb w (lit "hila") then Ok (Some (lit "hola")) else Ok (Some w) |}.

Definition keep_text : str -> unit -> result str := fun t _ => Ok t.

Definition both_failing : Corrector.globals unit :=
  {| Corrector.USE_LT := true;
     Corrector.lt_tool := Some failing_tool;
     Corrector.spell := Some failing_checker |}.

Definition dictionary_failing : Corrector.globals unit :=
  {| Corrector.USE_LT := false;
     Corrector.lt_tool := None;
     Corrector.spell := Some failing_checker |}.

Definition failing_then_tiny : Corrector.globals unit :=
  {| Corrector.USE_LT := true;
     Corrector.lt_tool := Some failing_tool;
     Corrector.spell := Some tiny_checker |}.

Definition helvetica : str := lit "Helvetica".

Definition some_page : Pipeline.Page :=
  {| Pipeline.rect_width := 600; Pipeline.rect_height := 800 |}.

Definition processor (skip : bool) : Pipeline.VerticalPDFProcessor :=
  {| Pipeline.dpi := 300; Pipeline.omit_first := skip;
     Pipeline.font_name := helvetica |}.

(** a recognition engine that reads the same word on every half *)
Definition ocr_hola : Pixmap -> str -> result str :=
  fun _ _ => Ok (lit "hola").

(** the same engine, raising on the left half of input page [k] (the
    half whose clip starts at x = 0) and on no other half *)
Definition ocr_failing_on_left (k : nat) : Pixmap -> str -> result str :=
  fun pix _ =>
    if Nat.eqb (pix_page pix) k && Qeq_bool (x0 (pix_clip pix)) 0
    then Raise (Exception 7)
    else Ok (lit "hola").

(** a run with no corrector backend and lines that need no wrapping *)
Definition run (ocr : Pixmap -> str -> result str) (skip : bool)
    (doc : Pipeline.Document) : list event * result unit :=
  Pipeline.process unit latin1_db keep_text Layout.one_segment ocr
    (Corrector.initial_globals unit) (processor skip) doc.

End Examples.

(* ================================================================== *)
(** ** Reading texts and logs *)

Module Reading.

(** [a] is [b] with some of its elements deleted *)
Inductive subseq {A : Type} : list A -> list A -> Prop :=
| subseq_nil : subseq [] []
| subseq_skip x a b : subseq a b -> subseq a (x :: b)
| subseq_take x a b : subseq a b -> subseq (x :: a) (x :: b).

(** the characters the normalizer may delete: hyphen, space, tab and
    line break *)
Definition is_layout_char (c : char) : bool :=
  Normalizer.is_hyphen c || Normalizer.is_sp_tab c || Normalizer.is_nl c.

(** the text without those characters *)
Definition ink (s : str) : str := filter (fun c => negb (is_layout_char c)) s.

(** a text without whitespace *)
Definition no_space (s : str) : bool :=
  forallb (fun c => negb (isspace c)) s.



End Reading.

(* ================================================================== *)
(** ** Reading the calls of the layout engine *)

Module LayoutReading.

(** the texts drawn, in call order *)
Definition drawn (log : list event) : list str :=
  flat_map (fun e => match e with
                     | DrawString _ _ s => [s]
                     | _ => []
                     end) log.

Section Page.

Variable simpleSplit : str -> str -> Q -> Q -> list str.
Variable font_name : str.
Variable font_size : Q.
Variable margins : Q * Q * Q * Q.

(** the segments into which [simpleSplit] cuts the lines that are not
    blank, in reading order *)
Fixpoint segments_of_lines (raw_lines : list str) : list str :=
  match raw_lines with
  | [] => []
  | raw_line :: rest =>
      let line := rstrip raw_line in
      match strip line with
      | [] => segments_of_lines rest
      | _ :: _ =>
          simpleSplit line font_name font_size (Layout.usable_w margins)
          ++ segments_of_lines rest
      end
  end.

Definition segments (text : str) : list str :=
  if is_blank text then [] else segments_of_lines (splitlines text).

(** calls in which a page is sealed only to go on at once with the
    font set again *)
Inductive page_turns : list event -> Prop :=
| turns_nil : page_turns []
| turns_draw x y s log :
    page_turns log -> page_turns (DrawString x y s :: log)
| turns_page log :
    page_turns log ->
    page_turns (ShowPage :: SetFont font_name font_size :: log).

End Page.

(** the lines that fit on a page in the style of [process]: font
    size 11, margins of 50 points, A4 *)
Definition lines_per_page : nat := 54.

End LayoutReading.

(* ================================================================== *)
(** ** Font choice: [pick_font] *)

Module Fonts.

Definition Arial : str := lit "Arial".
Definition DejaVuSans : str := lit "DejaVuSans".
Definition FreeSans : str := lit "FreeSans".
Definition Helvetica : str := lit "Helvetica".

(** Lines 108-113: logical name and file path. *)
Definition candidates : list (str * str) :=
  [ (Arial, lit "Arial.ttf");
    (Arial, lit "/usr/share/fonts/truetype/msttcorefonts/Arial.ttf");
    (DejaVuSans, lit "/usr/share/fonts/truetype/dejavu/DejaVuSans.ttf");
    (FreeSans, lit "/usr/share/fonts/truetype/freefont/FreeSans.ttf") ].

Section Probe.

(** [os.path.exists] *)
Variable path_exists : str -> bool.

(** [pdfmetrics.registerFont(TTFont(reg_name, path))] *)
Variable register_font : str -> str -> result unit.

(** Lines 114-123: the loop over the candidates and what follows it. *)
Fixpoint pick_from (cands : list (str * str)) : result str :=
  match cands with
  | [] => Ok Helvetica
  | (reg_name, path) :: rest =>
      if path_exists path
      then match register_font reg_name path with
           | Ok _ => Ok reg_name
           | Raise (Exception _) => pick_from rest
           | Raise e => Raise e
           end
      else pick_from rest
  end.

Definition pick_font : result str := pick_from candidates.

(** a candidate that the loop passes over: its file is not there, or
    registering it raises an [Exception] *)
Definition passed_over (c : str * str) : Prop :=
  path_exists (snd c) = false \/
  exists tag, register_font (fst c) (snd c) = Raise (Exception tag).

End Probe.

End Fonts.

(* ================================================================== *)
(** ** Command line: [VerticalPDFProcessor.__init__] and [main] *)

Module Cli.

Local Open Scope Q_scope.

(** what [parse_args] hands to [main] *)
Record Args := {
  input : str;
  output : str;
  dpi : Z;
  keep_first : bool
}.

(** [sys.exit(code)] raises [SystemExit], which is no [Exception] *)
Definition SystemExit (code : nat) : exn := BaseException code.

Section Main.

Variable Matches : Type.
Variable db : unicode_db.
Variable utils_correct : str -> Matches -> result str.
Variable simpleSplit : str -> str -> Q -> Q -> list str.
Variable image_to_string : Pixmap -> str -> result str.

Variable path_exists : str -> bool.
Variable register_font : str -> str -> result unit.
Variable new_lt : result (Corrector.LanguageTool Matches).
Variable new_spell : result Corrector.SpellChecker.

(** [fitz.open] *)
Variable open_document : str -> result Pipeline.Document.

(** [VerticalPDFProcessor.__init__]: the new object and the module
    globals as it leaves them *)
Definition init (dpi : Z) (omit_first : bool) (g : Corrector.globals Matches)
    : result (Pipeline.VerticalPDFProcessor * Corrector.globals Matches) :=
  match Corrector.setup_spell_tools Matches new_lt new_spell g with
  | Raise e => Raise e
  | Ok g' =>
      match Fonts.pick_font path_exists register_font with
      | Raise e => Raise e
      | Ok font =>
          Ok ({| Pipeline.dpi := dpi; Pipeline.omit_first := omit_first;
                 Pipeline.font_name := font |}, g')
      end
  end.

(** [main], from the parsed arguments on, in a fresh process *)
Definition main (args : Args) : list event * result unit :=
  if negb (path_exists (input args)) then ([], Raise (SystemExit 1))
  else
    match init (dpi args) (negb (keep_first args))
            (Corrector.initial_globals Matches) with
    | Raise e => ([], Raise e)
    | Ok (processor, g) =>
        match open_document (input args) with
        | Raise e => ([], Raise e)
        | Ok doc =>
            Pipeline.process Matches db utils_correct simpleSplit
              image_to_string g processor doc
        end
    end.

End Main.

End Cli.

(* ================================================================== *)
(** ** Reading the calls of a run *)

Module PipelineReading.

(** [pix] is the left or the right half of input page [i], rendered
    as [process] renders it *)
Definition half_of (self : Pipeline.VerticalPDFProcessor)
    (doc : Pipeline.Document) (i : nat) (pix : Pixmap) : Prop :=
  exists page,
    nth_error doc i = Some page /\
    (pix = Pipeline.left_pix self i page \/
     pix = Pipeline.right_pix self i page).

(** a call that the page loop may make while it is at input page [i] *)
Definition call_of_page (self : Pipeline.VerticalPDFProcessor)
    (doc : Pipeline.Document) (i : nat) (e : event) : Prop :=
  match e with
  | GetPixmap pix => half_of self doc i pix
  | ImageToString pix lang => lang = Pipeline.spa /\ half_of self doc i pix
  | Save => False
  | _ => True
  end.

(** a call that the page loop may make at some input page it visits *)
Definition call_in_range (self : Pipeline.VerticalPDFProcessor)
    (doc : Pipeline.Document) (e : event) : Prop :=
  match e with
  | Save => False
  | SetFont _ _ | DrawString _ _ _ | ShowPage => True
  | _ =>
      exists i,
        (Pipeline.start_page self <= i < length doc)%nat /\
        call_of_page self doc i e
  end.

(** every recognition is on a bitmap rendered before it ([seen] holds
    the bitmaps rendered so far) *)
Fixpoint ocr_after_render (seen : list Pixmap) (log : list event) : Prop :=
  match log with
  | [] => True
  | GetPixmap pix :: rest => ocr_after_render (pix :: seen) rest
  | ImageToString pix _ :: rest => In pix seen /\ ocr_after_render seen rest
  | _ :: rest => ocr_after_render seen rest
  end.

Section Halves.

Variable Matches : Type.
Variable db : unicode_db.
Variable utils_correct : str -> Matches -> result str.
Variable image_to_string : Pixmap -> str -> result str.
Variable g : Corrector.globals Matches.

(** recognition or correction raises [e] on one half of input page
    [i]; for the right half, the left half has yielded its text *)
Definition half_raises (self : Pipeline.VerticalPDFProcessor) (i : nat)
    (page : Pipeline.Page) (s : Pipeline.side) (e : exn) : Prop :=
  let half_text :=
    Pipeline.half_text Matches db utils_correct image_to_string g in
  match s with
  | Pipeline.Left => half_text (Pipeline.left_pix self i page) = Raise e
  | Pipeline.Right =>
      (exists left_text,
         half_text (Pipeline.left_pix self i page) = Ok left_text) /\
      half_text (Pipeline.right_pix self i page) = Raise e
  end.

End Halves.

(** the calls of one turn of the page loop at input page [i] *)
Definition turn_ok (self : Pipeline.VerticalPDFProcessor)
    (doc : Pipeline.Document) (i : nat) (tail : list event) : Prop :=
  Forall (call_of_page self doc i) tail /\ ocr_after_render [] tail.

(** the calls of the page loop as a whole *)
Definition loop_ok (self : Pipeline.VerticalPDFProcessor)
    (doc : Pipeline.Document) (tail : list event) : Prop :=
  Forall (call_in_range self doc) tail /\ ocr_after_render [] tail.

End PipelineReading.

(* ================================================================== *)
(** ** More concrete values *)

Module MoreExamples.

(** a dictionary that knows every word *)
Definition knows_all : Corrector.SpellChecker :=
  {| Corrector.correction := fun w => Ok (Some w) |}.

Definition dictionary_only (sp : Corrector.SpellChecker)
    : Corrector.globals unit :=
  {| Corrector.USE_LT := false;
     Corrector.lt_tool := None;
     Corrector.spell := Some sp |}.

(** a run with the dictionary backend alone *)
Definition run_with_dictionary (sp : Corrector.SpellChecker)
    (ocr : Pixmap -> str -> result str) (skip : bool)
    (doc : Pipeline.Document) : list event * result unit :=
  Pipeline.process unit latin1_db Examples.keep_text Layout.one_segment ocr
    (dictionary_only sp) (Examples.processor skip) doc.

(** a recognition engine that finds nothing but a line break *)
Definition ocr_blank : Pixmap -> str -> result str := fun _ _ => Ok [NL].

Definition sample_args : Cli.Args :=
  {| Cli.input := lit "in.pdf"; Cli.output := lit "out.pdf"; Cli.dpi := 300;
     Cli.keep_first := false |}.

(** a file system that holds the input file and no font file *)
Definition sample_exists : str -> bool := fun p => str_eqb p (lit "in.pdf").

End MoreExamples.

(* ================================================================== *)
(** ** Facts about the normalizer *)

Module NormalizerFacts.
Import Normalizer.

Lemma takeWhile_dropWhile {A} (p : A -> bool) (l : list A) :
  takeWhile p l ++ dropWhile p l = l.
Proof.
  induction l as [|x r IH]; simpl; [reflexivity|].
  destruct (p x); simpl; [now rewrite IH | reflexivity].
Qed.

Lemma dropWhile_length {A} (p : A -> bool) (l : list A) :
  length (dropWhile p l) <= length l.
Proof.
  induction l as [|x r IH]; simpl; [lia|].
  destruct (p x); simpl; lia.
Qed.

Lemma skipn_suffix {A} (pre rest : list A) :
  skipn (length (pre ++ rest) - length rest) (pre ++ rest) = rest.
Proof.
  rewrite length_app.
  replace (length pre + length rest - length rest) with (length pre) by lia.
  rewrite skipn_app, skipn_all, Nat.sub_diag. reflexivity.
Qed.

Lemma is_nl_eq c : is_nl c = true -> c = NL.
Proof. apply N.eqb_eq. Qed.

Lemma is_sp_eq c : is_sp c = true -> c = SP.
Proof. apply N.eqb_eq. Qed.

Lemma blank_not_nl c : is_sp_tab c = true -> is_nl c = false.
Proof.
  unfold is_sp_tab, is_nl. intros H.
  apply orb_true_iff in H as [H|H]; apply N.eqb_eq in H; subst; reflexivity.
Qed.

Lemma sp_is_blank c : is_sp c = true -> is_sp_tab c = true.
Proof. unfold is_sp, is_sp_tab. intros ->. reflexivity. Qed.

Lemma sp_not_nl c : is_sp c = true -> is_nl c = false.
Proof. intros H. apply blank_not_nl, sp_is_blank, H. Qed.

(** Induction on the length of the text [s], for scans that resume
    after a whole match; leaves the case of a text [c :: r] with the
    induction hypothesis [IH] for all texts no longer than [r]. *)
Ltac by_length_induction s :=
  let Hn := fresh "Hn" in
  remember (length s) as n eqn:Hn;
  assert (Hle : length s <= n) by lia;
  clear Hn; revert s Hle;
  induction n as [|n IH]; intros [|c r] Hle; simpl in Hle;
  try reflexivity; try lia.

(** *** Unfolding [Re.sub] *)

Lemma sub_from_skip pat repl k s :
  Re.sub_from pat repl k s = Re.sub pat repl (skipn k s).
Proof.
  revert k. induction s as [|c r IH]; intros [|k]; try reflexivity.
  simpl. apply IH.
Qed.

Lemma sub_nomatch pat repl c r :
  Re.match_here pat (c :: r) = None ->
  Re.sub pat repl (c :: r) = c :: Re.sub pat repl r.
Proof. unfold Re.sub. simpl. intros ->. reflexivity. Qed.

Lemma sub_match pat repl c r pre rest :
  Re.match_here pat (c :: r) = Some rest ->
  r = pre ++ rest ->
  Re.sub pat repl (c :: r) = repl ++ Re.sub pat repl rest.
Proof.
  unfold Re.sub at 1. simpl. intros -> ->.
  rewrite sub_from_skip, skipn_suffix. reflexivity.
Qed.

(** what a greedy repetition matches when nothing follows it in the
    pattern: the whole run, if it is long enough *)
Lemma rep_match_run p s n :
  Re.rep_match (Re.match_here []) p n s =
  if n <=? length (takeWhile p s) then Some (dropWhile p s) else None.
Proof.
  revert n. induction s as [|c r IH]; intros n.
  - destruct n; reflexivity.
  - simpl. destruct (p c) eqn:Ep.
    + rewrite IH. simpl length.
      destruct n as [|n]; simpl.
      * reflexivity.
      * destruct (n <=? length (takeWhile p r)); reflexivity.
    + destruct n; reflexivity.
Qed.

(** what [[ \t]+\n] matches: a blank run of any length at least [n]
    and the line break after it *)
Lemma rep_match_blank s n :
  Re.rep_match (Re.match_here [Re.One is_nl]) is_sp_tab n s =
  if n <=? length (takeWhile is_sp_tab s)
  then match dropWhile is_sp_tab s with
       | c :: r => if is_nl c then Some r else None
       | [] => None
       end
  else None.
Proof.
  revert n. induction s as [|c r IH]; intros n.
  - destruct n; reflexivity.
  - simpl Re.rep_match. simpl takeWhile. simpl dropWhile.
    destruct (is_sp_tab c) eqn:Ep.
    + rewrite IH. simpl length. rewrite (blank_not_nl _ Ep).
      destruct n as [|n]; simpl.
      * destruct (dropWhile is_sp_tab r) as [|d r']; [reflexivity|].
        destruct (is_nl d); reflexivity.
      * destruct (n <=? length (takeWhile is_sp_tab r)); [|reflexivity].
        destruct (dropWhile is_sp_tab r) as [|d r']; [reflexivity|].
        destruct (is_nl d); reflexivity.
    + destruct n; reflexivity.
Qed.

(** *** Rule 1 *)

Lemma rule1_scan s : rule1 s = join_hyphen s.
Proof.
  by_length_induction s.
  unfold rule1 in *.
  destruct r as [|d r'].
  - unfold Re.sub. simpl. destruct (is_hyphen c); reflexivity.
  - simpl join_hyphen.
    destruct (is_hyphen c && is_nl d) eqn:E.
    + apply andb_true_iff in E as [Ec Ed].
      rewrite (sub_match _ _ _ _ [d] r'); simpl; [|now rewrite Ec, Ed|reflexivity].
      apply IH. simpl in Hle. lia.
    + rewrite sub_nomatch.
      * f_equal. apply IH. lia.
      * simpl. destruct (is_hyphen c); [|reflexivity].
        simpl in E. now rewrite E.
Qed.

(** *** Rule 2 *)

Lemma strip_trailing_run b c rest :
  forallb is_sp_tab b = true -> is_nl c = true ->
  strip_trailing (b ++ c :: rest) = c :: strip_trailing rest.
Proof.
  intros Hb Hc. induction b as [|x b IH]; simpl in *.
  - destruct (is_sp_tab c) eqn:E; [|reflexivity].
    rewrite (blank_not_nl _ E) in Hc. discriminate.
  - apply andb_true_iff in Hb as [Hx Hb]. rewrite Hx. simpl.
    assert (Hbn : before_nl (b ++ c :: rest) = true).
    { clear IH Hx. unfold before_nl. induction b as [|y b IHb]; simpl in *.
      - destruct (is_sp_tab c) eqn:E; [|exact Hc].
        rewrite (blank_not_nl _ E) in Hc. discriminate.
      - apply andb_true_iff in Hb as [Hy Hb]. rewrite Hy. auto. }
    rewrite Hbn. auto.
Qed.

Lemma takeWhile_all {A} (p : A -> bool) l : forallb p (takeWhile p l) = true.
Proof.
  induction l as [|x r IH]; simpl; [reflexivity|].
  destruct (p x) eqn:E; simpl; [now rewrite E|reflexivity].
Qed.

Lemma rule2_scan s : rule2 s = strip_trailing s.
Proof.
  by_length_induction s.
  unfold rule2 in *.
  assert (Hm : Re.match_here pat_trailing_blank (c :: r) =
               if is_sp_tab c && before_nl r
               then Some (tl (dropWhile is_sp_tab r)) else None).
  { unfold pat_trailing_blank. simpl Re.match_here. rewrite rep_match_blank.
    simpl. unfold before_nl. destruct (is_sp_tab c); simpl; [|reflexivity].
    destruct (dropWhile is_sp_tab r) as [|d r']; [reflexivity|].
    destruct (is_nl d); reflexivity. }
  simpl strip_trailing.
  destruct (is_sp_tab c && before_nl r) eqn:E.
  - apply andb_true_iff in E as [Ec Eb].
    unfold before_nl in Eb.
    destruct (dropWhile is_sp_tab r) as [|d r'] eqn:Ed; [discriminate|].
    simpl tl in Hm.
    assert (Hr : r = takeWhile is_sp_tab r ++ d :: r').
    { rewrite <- Ed. symmetry. apply takeWhile_dropWhile. }
    rewrite (sub_match _ _ _ _ (takeWhile is_sp_tab r ++ [d]) r' Hm).
    2:{ rewrite <- app_assoc. exact Hr. }
    rewrite Hr. rewrite strip_trailing_run; [|apply takeWhile_all|exact Eb].
    rewrite (is_nl_eq _ Eb). simpl. f_equal. apply IH.
    assert (length (dropWhile is_sp_tab r) <= length r) by apply dropWhile_length.
    rewrite Ed in H. simpl in H. lia.
  - rewrite sub_nomatch; [|exact Hm]. f_equal. apply IH. lia.
Qed.


(** *** Rule 3 *)

Lemma squeeze_nl_short s : forall j,
  j + length (takeWhile is_nl s) <= 2 -> squeeze_nl j s = squeeze_nl 0 s.
Proof.
  induction s as [|c r IH]; intros j Hj; [reflexivity|].
  simpl in *. destruct (is_nl c) eqn:E; [|reflexivity].
  simpl in Hj.
  assert (Hj2 : (j <? 2) = true) by (apply Nat.ltb_lt; lia).
  rewrite Hj2. simpl. f_equal.
  rewrite (IH (S j)) by lia. rewrite (IH 1) by lia. reflexivity.
Qed.

Lemma squeeze_nl_run s : squeeze_nl 2 s = squeeze_nl 0 (dropWhile is_nl s).
Proof.
  induction s as [|c r IH]; [reflexivity|].
  simpl. destruct (is_nl c) eqn:E; [exact IH|].
  simpl. rewrite E. reflexivity.
Qed.

Lemma takeWhile_nil_dropWhile {A} (p : A -> bool) l :
  takeWhile p l = [] -> dropWhile p l = l.
Proof.
  destruct l as [|x r]; simpl; [reflexivity|].
  destruct (p x); [discriminate|reflexivity].
Qed.

Lemma rule3_scan s : rule3 s = squeeze_nl 0 s.
Proof.
  by_length_induction s.
  unfold rule3 in *.
  assert (Hm : Re.match_here pat_breaks (c :: r) =
               if 3 <=? length (takeWhile is_nl (c :: r))
               then Some (dropWhile is_nl (c :: r)) else None).
  { unfold pat_breaks. cbn [Re.match_here]. apply rep_match_run. }
  cbn [takeWhile dropWhile] in Hm. cbn [squeeze_nl].
  destruct (is_nl c) eqn:Ec.
  - cbn [Nat.ltb Nat.leb].
    destruct (3 <=? length (c :: takeWhile is_nl r)) eqn:E3.
    + apply Nat.leb_le in E3. cbn [length] in E3.
      destruct r as [|d r2]; [simpl in E3; lia|].
      cbn [takeWhile] in E3. destruct (is_nl d) eqn:Ed; [|simpl in E3; lia].
      rewrite (sub_match _ _ _ _ (takeWhile is_nl (d :: r2)) _ Hm).
      2:{ symmetry. apply takeWhile_dropWhile. }
      cbn [squeeze_nl dropWhile]. rewrite Ed. cbn [Nat.ltb Nat.leb].
      rewrite squeeze_nl_run. rewrite (is_nl_eq _ Ec), (is_nl_eq _ Ed).
      simpl app. do 2 f_equal. apply IH.
      pose proof (dropWhile_length is_nl r2). simpl in Hle. lia.
    + apply Nat.leb_gt in E3. cbn [length] in E3.
      rewrite sub_nomatch by exact Hm. f_equal.
      rewrite squeeze_nl_short by lia. apply IH. lia.
  - rewrite sub_nomatch by exact Hm. f_equal. apply IH. lia.
Qed.

(** *** Rule 4 *)

Lemma squeeze_sp_run s : squeeze_sp true s = squeeze_sp false (dropWhile is_sp s).
Proof.
  induction s as [|c r IH]; [reflexivity|].
  simpl. destruct (is_sp c) eqn:E; [exact IH|].
  simpl. rewrite E. reflexivity.
Qed.

Lemma rule4_scan s : rule4 s = squeeze_sp false s.
Proof.
  by_length_induction s.
  unfold rule4 in *.
  assert (Hm : Re.match_here pat_spaces (c :: r) =
               if 2 <=? length (takeWhile is_sp (c :: r))
               then Some (dropWhile is_sp (c :: r)) else None).
  { unfold pat_spaces. cbn [Re.match_here]. apply rep_match_run. }
  cbn [takeWhile dropWhile] in Hm. cbn [squeeze_sp].
  destruct (is_sp c) eqn:Ec.
  - rewrite squeeze_sp_run.
    destruct (2 <=? length (c :: takeWhile is_sp r)) eqn:E2.
    + rewrite (sub_match _ _ _ _ (takeWhile is_sp r) _ Hm).
      2:{ symmetry. apply takeWhile_dropWhile. }
      rewrite (is_sp_eq _ Ec). simpl app. f_equal. apply IH.
      pose proof (dropWhile_length is_sp r). lia.
    + apply Nat.leb_gt in E2. cbn [length] in E2.
      rewrite sub_nomatch by exact Hm. f_equal.
      rewrite takeWhile_nil_dropWhile.
      * apply IH. lia.
      * destruct (takeWhile is_sp r); [reflexivity|simpl in E2; lia].
  - rewrite sub_nomatch by exact Hm. f_equal. apply IH. lia.
Qed.

Lemma normalize_scan s :
  normalize s = squeeze_sp false (squeeze_nl 0 (strip_trailing (join_hyphen s))).
Proof.
  unfold normalize.
  now rewrite rule4_scan, rule3_scan, rule2_scan, rule1_scan.
Qed.

(** *** Texts that a rewrite leaves alone *)

Lemma join_hyphen_fixed s : no_hyphen_break s = true -> join_hyphen s = s.
Proof.
  induction s as [|c r IH]; [reflexivity|].
  destruct r as [|d r']; [reflexivity|].
  cbn [no_hyphen_break join_hyphen]. intros H.
  apply andb_true_iff in H as [H1 H2]. apply negb_true_iff in H1.
  rewrite H1. f_equal. apply IH, H2.
Qed.

Lemma no_blank_break_before_nl s :
  no_blank_break true s = true -> before_nl s = false.
Proof.
  unfold before_nl. induction s as [|c r IH]; [reflexivity|].
  simpl. destruct (is_nl c) eqn:En; [discriminate|].
  destruct (is_sp_tab c) eqn:Eb; [exact IH|]. intros _. exact En.
Qed.

Lemma strip_trailing_fixed s : forall pb,
  no_blank_break pb s = true -> strip_trailing s = s.
Proof.
  induction s as [|c r IH]; intros pb H; [reflexivity|].
  simpl in *. destruct (is_nl c) eqn:En.
  - apply andb_true_iff in H as [_ H].
    destruct (is_sp_tab c) eqn:Eb.
    + rewrite (blank_not_nl _ Eb) in En. discriminate.
    + simpl. f_equal. eapply IH, H.
  - destruct (is_sp_tab c) eqn:Eb; simpl.
    + rewrite (no_blank_break_before_nl _ H). f_equal. eapply IH, H.
    + f_equal. eapply IH, H.
Qed.

Lemma squeeze_nl_fixed s : forall k,
  no_triple_break k s = true -> squeeze_nl k s = s.
Proof.
  induction s as [|c r IH]; intros k H; [reflexivity|].
  simpl in *. destruct (is_nl c).
  - apply andb_true_iff in H as [H1 H2]. rewrite H1. f_equal. apply IH, H2.
  - f_equal. apply IH, H.
Qed.

Lemma squeeze_sp_fixed s : forall b,
  no_double_space b s = true -> squeeze_sp b s = s.
Proof.
  induction s as [|c r IH]; intros b H; [reflexivity|].
  simpl in *. destruct (is_sp c).
  - apply andb_true_iff in H as [H1 H2]. apply negb_true_iff in H1. subst b.
    f_equal. apply IH, H2.
  - f_equal. apply IH, H.
Qed.

(** *** What each rewrite establishes *)

Lemma strip_trailing_shape s : forall pb,
  (pb = true -> before_nl s = false) ->
  no_blank_break pb (strip_trailing s) = true.
Proof.
  induction s as [|c r IH]; intros pb Hpb; [reflexivity|].
  simpl. destruct (is_sp_tab c) eqn:Eb; simpl.
  - assert (Hbn : before_nl (c :: r) = before_nl r).
    { unfold before_nl. simpl. now rewrite Eb. }
    destruct (before_nl r) eqn:Er.
    + apply IH. intros ->. rewrite Hbn in Hpb. now apply Hpb.
    + simpl. rewrite (blank_not_nl _ Eb), Eb. apply IH. intros _. reflexivity.
  - destruct (is_nl c) eqn:En.
    + destruct pb.
      * specialize (Hpb eq_refl). unfold before_nl in Hpb. simpl in Hpb.
        rewrite ?Eb in Hpb. congruence.
      * simpl. apply IH. easy.
    + rewrite Eb. apply IH. easy.
Qed.

Lemma squeeze_nl_shape s : forall k,
  k <= 2 -> no_triple_break k (squeeze_nl k s) = true.
Proof.
  induction s as [|c r IH]; intros k Hk; [reflexivity|].
  simpl. destruct (is_nl c) eqn:En.
  - destruct (k <? 2) eqn:E2.
    + simpl. rewrite En, E2. apply IH. apply Nat.ltb_lt in E2. lia.
    + apply Nat.ltb_ge in E2. replace k with 2 by lia. apply IH. lia.
  - simpl. rewrite En. apply IH. lia.
Qed.

Lemma squeeze_sp_shape s : forall b,
  no_double_space b (squeeze_sp b s) = true.
Proof.
  induction s as [|c r IH]; intros b; [reflexivity|].
  simpl. destruct (is_sp c) eqn:Es.
  - destruct b; [apply IH|]. simpl. rewrite Es. apply IH.
  - simpl. rewrite Es. apply IH.
Qed.

(** *** What the later rewrites keep *)

Lemma squeeze_nl_keeps_blank_break s : forall k pb,
  no_blank_break pb s = true -> no_blank_break pb (squeeze_nl k s) = true.
Proof.
  induction s as [|c r IH]; intros k pb H; [reflexivity|].
  simpl in *. destruct (is_nl c) eqn:En.
  - apply andb_true_iff in H as [H1 H2].
    apply negb_true_iff in H1. subst pb.
    destruct (k <? 2); [|now apply IH].
    simpl. rewrite En. now apply IH.
  - simpl. rewrite En. now apply IH.
Qed.

Lemma squeeze_sp_keeps_blank_break s : forall b pb,
  (b = true -> pb = true) ->
  no_blank_break pb s = true -> no_blank_break pb (squeeze_sp b s) = true.
Proof.
  induction s as [|c r IH]; intros b pb Hb H; [reflexivity|].
  simpl in *. destruct (is_sp c) eqn:Es.
  - rewrite (sp_not_nl _ Es), (sp_is_blank _ Es) in H.
    destruct b.
    + rewrite (Hb eq_refl). now apply IH.
    + simpl. rewrite (sp_not_nl _ Es), (sp_is_blank _ Es). now apply IH.
  - simpl. destruct (is_nl c).
    + apply andb_true_iff in H as [H1 H2]. rewrite H1. simpl.
      apply IH; [easy|exact H2].
    + apply IH; [easy|exact H].
Qed.

Lemma no_triple_break_after_blank s k :
  no_blank_break true s = true -> no_triple_break k s = no_triple_break 0 s.
Proof.
  destruct s as [|c r]; [reflexivity|].
  simpl. destruct (is_nl c); [discriminate|reflexivity].
Qed.

Lemma squeeze_sp_keeps_triple_break s : forall b pb k,
  (b = true -> pb = true) ->
  no_blank_break pb s = true ->
  no_triple_break k s = true -> no_triple_break k (squeeze_sp b s) = true.
Proof.
  induction s as [|c r IH]; intros b pb k Hb H2 H3; [reflexivity|].
  simpl in *. destruct (is_sp c) eqn:Es.
  - rewrite (sp_not_nl _ Es) in H2, H3. rewrite (sp_is_blank _ Es) in H2.
    destruct b.
    + rewrite (no_triple_break_after_blank _ k).
      * now apply (IH true true 0).
      * now apply squeeze_sp_keeps_blank_break.
    + simpl. rewrite (sp_not_nl _ Es). now apply (IH true true 0).
  - simpl. destruct (is_nl c).
    + apply andb_true_iff in H2 as [_ H2]. apply andb_true_iff in H3 as [H31 H3].
      rewrite H31. simpl. apply (IH false false); [easy|exact H2|exact H3].
    + apply (IH false (is_sp_tab c)); [easy|exact H2|exact H3].
Qed.

(** *** Lengths *)

Lemma join_hyphen_step c d r :
  join_hyphen (c :: d :: r) =
  if is_hyphen c && is_nl d then join_hyphen r else c :: join_hyphen (d :: r).
Proof. reflexivity. Qed.

Lemma join_hyphen_length s : length (join_hyphen s) <= length s.
Proof.
  remember (length s) as n eqn:Hn. assert (Hle : length s <= n) by lia.
  rewrite Hn. clear Hn. revert s Hle.
  induction n as [|n IH]; intros [|c r] Hle; simpl in Hle; try (simpl; lia).
  destruct r as [|d r']; [simpl; lia|].
  rewrite join_hyphen_step. destruct (is_hyphen c && is_nl d).
  - specialize (IH r'). cbn [length] in *. lia.
  - specialize (IH (d :: r')). cbn [length] in *. lia.
Qed.

Lemma join_hyphen_shorter s :
  no_hyphen_break s = false -> length (join_hyphen s) < length s.
Proof.
  induction s as [|c r IH]; [discriminate|].
  destruct r as [|d r']; [discriminate|].
  rewrite join_hyphen_step. cbn [no_hyphen_break].
  destruct (is_hyphen c && is_nl d); simpl negb.
  - intros _. pose proof (join_hyphen_length r'). simpl. lia.
  - simpl andb. intros H. specialize (IH H). cbn [length] in *. lia.
Qed.

Lemma strip_trailing_length s : length (strip_trailing s) <= length s.
Proof.
  induction s as [|c r IH]; simpl; [lia|].
  destruct (is_sp_tab c && before_nl r); simpl; lia.
Qed.

Lemma squeeze_nl_length s : forall k, length (squeeze_nl k s) <= length s.
Proof.
  induction s as [|c r IH]; intros k; simpl; [lia|].
  destruct (is_nl c); [destruct (k <? 2)|]; simpl;
    try (specialize (IH (S k)); lia); try (specialize (IH 2); lia);
    specialize (IH 0); lia.
Qed.

Lemma squeeze_sp_length s : forall b, length (squeeze_sp b s) <= length s.
Proof.
  induction s as [|c r IH]; intros b; simpl; [lia|].
  destruct (is_sp c); [destruct b|]; simpl;
    try (specialize (IH true); lia); specialize (IH false); lia.
Qed.

(** *** The shape of normalized text *)

Lemma normalize_settled t : settled (normalize t) = true.
Proof.
  rewrite normalize_scan. unfold settled.
  set (u := strip_trailing (join_hyphen t)).
  assert (H2 : no_blank_break false u = true)
    by (apply strip_trailing_shape; easy).
  assert (H2' : no_blank_break false (squeeze_nl 0 u) = true)
    by now apply squeeze_nl_keeps_blank_break.
  assert (H3 : no_triple_break 0 (squeeze_nl 0 u) = true)
    by (apply squeeze_nl_shape; lia).
  rewrite (squeeze_sp_keeps_blank_break _ false false) by easy.
  rewrite (squeeze_sp_keeps_triple_break _ false false) by easy.
  rewrite squeeze_sp_shape. reflexivity.
Qed.

Lemma normalize_fixed u :
  settled u = true -> no_hyphen_break u = true -> normalize u = u.
Proof.
  unfold settled. intros H H1.
  apply andb_true_iff in H as [H H4]. apply andb_true_iff in H as [H2 H3].
  rewrite normalize_scan, (join_hyphen_fixed _ H1),
    (strip_trailing_fixed _ _ H2), (squeeze_nl_fixed _ _ H3).
  apply squeeze_sp_fixed, H4.
Qed.

Lemma normalize_shorter u :
  no_hyphen_break u = false -> length (normalize u) < length u.
Proof.
  intros H. rewrite normalize_scan.
  pose proof (join_hyphen_shorter _ H).
  pose proof (strip_trailing_length (join_hyphen u)).
  pose proof (squeeze_nl_length (strip_trailing (join_hyphen u)) 0).
  pose proof (squeeze_sp_length (squeeze_nl 0 (strip_trailing (join_hyphen u))) false).
  lia.
Qed.

(** C3, as amended. One more pass of the normalizer changes nothing
    exactly when the normalized text holds no hyphen immediately
    followed by a line break. *)
Theorem normalize_idempotent_iff (t : str) :
  normalize (normalize t) = normalize t <->
  no_hyphen_break (normalize t) = true.
Proof.
  split.
  - intros H. destruct (no_hyphen_break (normalize t)) eqn:E; [reflexivity|].
    apply normalize_shorter in E. rewrite H in E. lia.
  - intros H. apply normalize_fixed; [apply normalize_settled|exact H].
Qed.

(** *** Texts without hyphens *)

Lemma join_hyphen_in x s : In x (join_hyphen s) -> In x s.
Proof.
  revert x. by_length_induction s; intros x; try (now intros []).
  destruct r as [|d r']; [exact (fun H => H)|].
  rewrite join_hyphen_step. destruct (is_hyphen c && is_nl d).
  - intros H. right. right. apply IH; [simpl in Hle; lia|exact H].
  - intros [<-|H]; [now left|]. right. apply IH; [lia|exact H].
Qed.

Lemma strip_trailing_in x s : In x (strip_trailing s) -> In x s.
Proof.
  induction s as [|c r IH]; [intros []|].
  simpl. destruct (is_sp_tab c && before_nl r); simpl; intuition.
Qed.

Lemma squeeze_nl_in x s : forall k, In x (squeeze_nl k s) -> In x s.
Proof.
  induction s as [|c r IH]; intros k; [intros []|].
  simpl. destruct (is_nl c); [destruct (k <? 2)|]; simpl;
    intros H; try (destruct H as [<-|H]; [now left|]); right; eapply IH, H.
Qed.

Lemma squeeze_sp_in x s : forall b, In x (squeeze_sp b s) -> In x s.
Proof.
  induction s as [|c r IH]; intros b; [intros []|].
  simpl. destruct (is_sp c); [destruct b|]; simpl;
    intros H; try (destruct H as [<-|H]; [now left|]); right; eapply IH, H.
Qed.

(** The normalizer brings in no character the text did not have. *)
Lemma normalize_in x t : In x (normalize t) -> In x t.
Proof.
  rewrite normalize_scan. intros H.
  apply squeeze_sp_in, squeeze_nl_in, strip_trailing_in, join_hyphen_in in H.
  exact H.
Qed.

Lemma no_hyphen_break_step c d r :
  no_hyphen_break (c :: d :: r) =
  negb (is_hyphen c && is_nl d) && no_hyphen_break (d :: r).
Proof. reflexivity. Qed.

Lemma no_hyphen_no_break s : ~ In HYPHEN s -> no_hyphen_break s = true.
Proof.
  induction s as [|c r IH]; [reflexivity|].
  destruct r as [|d r']; [reflexivity|].
  intros H. rewrite no_hyphen_break_step.
  rewrite IH by (intros Hr; apply H; now right).
  destruct (is_hyphen c) eqn:E; [|reflexivity].
  apply N.eqb_eq in E. subst c. elim H. now left.
Qed.

(** On a text without a hyphen the normalizer is idempotent. *)
Corollary normalize_idempotent_without_hyphen t :
  ~ In HYPHEN t -> normalize (normalize t) = normalize t.
Proof.
  intros H. apply normalize_fixed; [apply normalize_settled|].
  apply no_hyphen_no_break. intros Hn. apply H, normalize_in, Hn.
Qed.

(** C3 fails as stated: a doubled hyphen before two line breaks loses
    one hyphen and one break per pass; a hyphen, a space and a line
    break lose the space in the first pass and the other two in the
    second. *)
Lemma normalize_not_idempotent :
  let t := lit "a--" ++ [NL; NL] ++ lit "b" in
  let u := lit "a- " ++ [NL] ++ lit "b" in
  normalize t = lit "a-" ++ [NL] ++ lit "b" /\
  normalize (normalize t) = lit "ab" /\
  normalize (normalize t) <> normalize t /\
  normalize u = lit "a-" ++ [NL] ++ lit "b" /\
  normalize (normalize u) <> normalize u.
Proof.
  vm_compute. repeat split; discriminate.
Qed.

(** *** Rule 4 on runs *)

Lemma squeeze_sp_app pre : forall b x,
  squeeze_sp b (pre ++ x) =
  squeeze_sp b pre ++
  squeeze_sp (match pre with [] => b | _ :: _ => ends_with_sp pre end) x.
Proof.
  unfold ends_with_sp.
  induction pre as [|c pre IH]; intros b x; [reflexivity|].
  assert (Hl : match pre with [] => is_sp c | _ :: _ => is_sp (last pre 0%N) end
               = is_sp (last (c :: pre) 0%N)).
  { destruct pre; reflexivity. }
  rewrite <- Hl. cbn [app squeeze_sp].
  destruct (is_sp c) eqn:Es.
  - destruct b; rewrite IH; reflexivity.
  - rewrite IH. reflexivity.
Qed.

Lemma squeeze_sp_spaces n : forall x,
  squeeze_sp true (repeat SP n ++ x) = squeeze_sp true x.
Proof. induction n as [|n IH]; intros x; [reflexivity|]. simpl. apply IH. Qed.

Lemma squeeze_sp_tabs n : forall b x,
  squeeze_sp b (repeat TAB (S n) ++ x) = repeat TAB (S n) ++ squeeze_sp false x.
Proof.
  induction n as [|n IH]; intros b x; [reflexivity|].
  change (repeat TAB (S (S n)) ++ x) with (TAB :: (repeat TAB (S n) ++ x)).
  cbn [squeeze_sp]. change (is_sp TAB) with false. cbv iota.
  rewrite IH. reflexivity.
Qed.

Lemma squeeze_sp_after_space x :
  starts_with_sp x = false -> squeeze_sp true x = squeeze_sp false x.
Proof.
  unfold starts_with_sp. destruct x as [|c r]; [reflexivity|].
  simpl. intros ->. reflexivity.
Qed.

(** C4, as amended. Rule 4 replaces every run of two or more spaces
    by one space; a run of tabs of the same length stays as it is. *)
Theorem rule4_collapses_spaces_only (pre post : str) (n : nat) :
  2 <= n ->
  ends_with_sp pre = false ->
  starts_with_sp post = false ->
  rule4 (pre ++ repeat SP n ++ post) = rule4 pre ++ [SP] ++ rule4 post /\
  rule4 (pre ++ repeat TAB n ++ post) = rule4 pre ++ repeat TAB n ++ rule4 post.
Proof.
  intros Hn Hpre Hpost. rewrite !rule4_scan.
  assert (Hst : match pre with [] => false | _ :: _ => ends_with_sp pre end = false).
  { destruct pre; [reflexivity|exact Hpre]. }
  split.
  - rewrite squeeze_sp_app, Hst.
    destruct n as [|n]; [lia|]. cbn [repeat app squeeze_sp].
    change (is_sp SP) with true. cbv iota.
    rewrite squeeze_sp_spaces, (squeeze_sp_after_space _ Hpost). reflexivity.
  - rewrite squeeze_sp_app, Hst.
    destruct n as [|n]; [lia|]. rewrite squeeze_sp_tabs. reflexivity.
Qed.

Lemma rule4_collapses_spaces_only_witness :
  rule4 (lit "a" ++ repeat SP 3 ++ lit "b") = lit "a" ++ [SP] ++ lit "b" /\
  rule4 (lit "a" ++ repeat TAB 3 ++ lit "b") = lit "a" ++ repeat TAB 3 ++ lit "b".
Proof.
  apply (rule4_collapses_spaces_only (lit "a") (lit "b") 3);
    [lia | reflexivity | reflexivity].
Defined.

(** C4 fails as stated: runs of tabs, and runs mixing spaces and
    tabs, come out of the normalizer unchanged. *)
Lemma tabs_not_collapsed :
  normalize (lit "a" ++ [TAB; TAB] ++ lit "b") = lit "a" ++ [TAB; TAB] ++ lit "b" /\
  normalize (lit "a" ++ [SP; TAB] ++ lit "b") = lit "a" ++ [SP; TAB] ++ lit "b" /\
  normalize (lit "a" ++ [TAB; TAB] ++ lit "b") <> lit "a b" /\
  normalize (lit "a" ++ [SP; TAB] ++ lit "b") <> lit "a b".
Proof.
  vm_compute. repeat split; discriminate.
Qed.

(** The examples of the specification. *)
Example normalize_joins_hyphen :
  normalize (lit "pala-" ++ [NL] ++ lit "bra") = lit "palabra".
Proof. reflexivity. Qed.

Example normalize_collapses_breaks :
  normalize (lit "a" ++ [NL; NL; NL; NL] ++ lit "b") = lit "a" ++ [NL; NL] ++ lit "b".
Proof. reflexivity. Qed.

Example normalize_collapses_spaces :
  normalize (lit "a   b") = lit "a b".
Proof. reflexivity. Qed.
End NormalizerFacts.

(* ================================================================== *)
(** ** Facts about the corrector *)

Module CorrectorFacts.
Import Corrector.

Lemma takeWhile_app_stop {A} (p : A -> bool) (a b : list A) :
  existsb (fun x => negb (p x)) a = true ->
  takeWhile p (a ++ b) = takeWhile p a.
Proof.
  induction a as [|x a IH]; simpl; [discriminate|].
  destruct (p x); simpl; [|reflexivity].
  intros H. now rewrite IH.
Qed.

Lemma existsb_rev {A} (p : A -> bool) (l : list A) :
  existsb p (rev l) = existsb p l.
Proof.
  induction l as [|x l IH]; [reflexivity|].
  simpl. rewrite existsb_app, IH. simpl. rewrite orb_false_r. apply orb_comm.
Qed.

Section Backends.

Variable Matches : Type.
Variable db : unicode_db.
Variable utils_correct : str -> Matches -> result str.

Local Abbreviation non_alnum := (non_alnum db).
Local Abbreviation leading_run := (leading_run db).
Local Abbreviation trailing_run := (trailing_run db).
Local Abbreviation core_of := (core_of db).
Local Abbreviation correct_token := (correct_token db).
Local Abbreviation correct_tokens := (correct_tokens db).
Local Abbreviation dictionary_correct := (dictionary_correct db).
Local Abbreviation correct_spanish_text := (correct_spanish_text Matches db utils_correct).
Local Abbreviation try_language_tool := (try_language_tool Matches utils_correct).

Lemma alpha_is_alnum c : isalpha db c = true -> non_alnum c = false.
Proof. unfold Corrector.non_alnum, isalnum. intros ->. reflexivity. Qed.

Lemma strip_prefix_runs core : forall prefix,
  strip_prefix db prefix core =
  (prefix ++ takeWhile non_alnum core, dropWhile non_alnum core).
Proof.
  induction core as [|c r IH]; intros prefix; simpl.
  - now rewrite app_nil_r.
  - unfold Corrector.non_alnum at 1 3. destruct (negb (isalnum db c)).
    + rewrite IH, <- app_assoc. reflexivity.
    + now rewrite app_nil_r.
Qed.

Lemma strip_suffix_rev_runs rcore : forall suffix,
  strip_suffix_rev db suffix rcore =
  (rev (takeWhile non_alnum rcore) ++ suffix, dropWhile non_alnum rcore).
Proof.
  induction rcore as [|c r IH]; intros suffix; simpl; [reflexivity|].
  unfold Corrector.non_alnum at 1 3. destruct (negb (isalnum db c)).
  - rewrite IH. simpl. rewrite <- app_assoc. reflexivity.
  - reflexivity.
Qed.

Lemma strip_suffix_runs core :
  strip_suffix db [] core =
  (rev (takeWhile non_alnum (rev core)), rev (dropWhile non_alnum (rev core))).
Proof.
  unfold strip_suffix. rewrite strip_suffix_rev_runs, app_nil_r. reflexivity.
Qed.

Lemma alpha_after_leading tok :
  existsb (isalpha db) tok = true ->
  existsb (isalpha db) (dropWhile non_alnum tok) = true.
Proof.
  induction tok as [|c r IH]; simpl; [discriminate|].
  destruct (non_alnum c) eqn:E.
  - destruct (isalpha db c) eqn:Ea.
    + rewrite (alpha_is_alnum _ Ea) in E. discriminate.
    + exact IH.
  - intros H. exact H.
Qed.

Lemma alpha_stops_run l :
  existsb (isalpha db) l = true ->
  existsb (fun x => negb (non_alnum x)) l = true.
Proof.
  induction l as [|c r IH]; simpl; [discriminate|].
  destruct (isalpha db c) eqn:Ea.
  - rewrite (alpha_is_alnum _ Ea). reflexivity.
  - simpl. intros H. rewrite (IH H). apply orb_true_r.
Qed.

(** A token that holds a letter is its leading run, a core that is
    not empty, and its trailing run. *)
Lemma token_parts tok :
  existsb (isalpha db) tok = true ->
  tok = leading_run tok ++ core_of tok ++ trailing_run tok /\
  core_of tok <> [] /\
  strip_prefix db [] tok = (leading_run tok, dropWhile non_alnum tok) /\
  strip_suffix db [] (dropWhile non_alnum tok) = (trailing_run tok, core_of tok).
Proof.
  intros Ha. unfold Corrector.leading_run, Corrector.trailing_run, Corrector.core_of.
  set (core1 := dropWhile non_alnum tok).
  assert (H1 : existsb (isalpha db) core1 = true) by now apply alpha_after_leading.
  assert (H2 : existsb (isalpha db) (rev core1) = true) by now rewrite existsb_rev.
  assert (Htr : takeWhile non_alnum (rev tok) = takeWhile non_alnum (rev core1)).
  { rewrite <- (NormalizerFacts.takeWhile_dropWhile non_alnum tok) at 1.
    rewrite rev_app_distr. apply takeWhile_app_stop, alpha_stops_run, H2. }
  split; [|split; [|split]].
  - rewrite Htr, <- rev_app_distr, NormalizerFacts.takeWhile_dropWhile, rev_involutive.
    symmetry. apply NormalizerFacts.takeWhile_dropWhile.
  - intros Hc. apply (f_equal (@rev char)) in Hc. rewrite rev_involutive in Hc.
    simpl in Hc. apply alpha_after_leading in H2. rewrite Hc in H2. discriminate.
  - rewrite strip_prefix_runs. reflexivity.
  - rewrite strip_suffix_runs, Htr. reflexivity.
Qed.

(** C8. A token without a letter is passed on as it is. A token with
    a letter splits into its leading run of non-alphanumeric
    characters, a core and its trailing run; when the dictionary
    answers a word for the core, the token becomes that word between
    the two runs, both unchanged. *)
Theorem dictionary_keeps_affixes (sp : SpellChecker) (tok : str) :
  (existsb (isalpha db) tok = false -> correct_token sp tok = Ok tok) /\
  (existsb (isalpha db) tok = true ->
   tok = leading_run tok ++ core_of tok ++ trailing_run tok /\
   core_of tok <> [] /\
   forall s, correction sp (core_of tok) = Ok (Some s) -> s <> [] ->
     correct_token sp tok = Ok (leading_run tok ++ s ++ trailing_run tok)).
Proof.
  split.
  - intros H. unfold Corrector.correct_token. rewrite H. reflexivity.
  - intros H. destruct (token_parts tok H) as (Htok & Hcore & Hp & Hs).
    split; [exact Htok|]. split; [exact Hcore|].
    intros s Hsug Hne. unfold Corrector.correct_token.
    rewrite H, Hp, Hs.
    destruct (core_of tok) as [|c0 core] eqn:Ec; [now elim Hcore|].
    rewrite Hsug. destruct s; [now elim Hne|reflexivity].
Qed.

(** *** The fallback chain *)

Lemma correct_tokens_total (sp : SpellChecker) toks :
  (forall w, exists r, correction sp w = Ok r) ->
  forall tokens, exists out, correct_tokens sp tokens toks = Ok out.
Proof.
  intros Htot. induction toks as [|tok rest IH]; intros tokens; simpl.
  - now exists tokens.
  - assert (Ht : exists t, correct_token sp tok = Ok t).
    { unfold Corrector.correct_token.
      destruct (existsb (isalpha db) tok); [|now eexists].
      destruct (strip_prefix db [] tok) as [prefix core].
      destruct (strip_suffix db [] core) as [suffix core'].
      destruct core' as [|c0 core']; [now eexists|].
      destruct (Htot (c0 :: core')) as [r ->].
      destruct r as [[|x s]|]; now eexists. }
    destruct Ht as [t ->]. apply IH.
Qed.

Lemma dictionary_correct_total (sp : SpellChecker) text :
  (forall w, exists r, correction sp w = Ok r) ->
  exists out, dictionary_correct sp text = Ok out.
Proof.
  intros Htot. unfold Corrector.dictionary_correct.
  destruct (correct_tokens_total sp (split text) Htot []) as [out ->].
  now eexists.
Qed.

(** C1, as amended. When the check of the grammar backend raises an
    [Exception] on a text, [correct_spanish_text] goes on with the
    dictionary backend: its answer is the outcome of the word-by-word
    pass, or the normalized text when there is no dictionary backend.
    The outcome of the word-by-word pass is a text whenever every
    lookup returns. *)
Theorem grammar_failure_falls_to_dictionary
    (g : globals Matches) (text : str) (tool : LanguageTool Matches) (e : nat) :
  is_blank text = false ->
  lt_tool g = Some tool ->
  check tool (Normalizer.normalize text) = Raise (Exception e) ->
  correct_spanish_text g text =
    match spell g with
    | Some sp => dictionary_correct sp (Normalizer.normalize text)
    | None => Ok (Normalizer.normalize text)
    end /\
  (forall sp, spell g = Some sp ->
     (forall w, exists r, correction sp w = Ok r) ->
     exists out, correct_spanish_text g text = Ok out).
Proof.
  intros Hb Ht Hc.
  assert (Heq : correct_spanish_text g text =
    match spell g with
    | Some sp => dictionary_correct sp (Normalizer.normalize text)
    | None => Ok (Normalizer.normalize text)
    end).
  { unfold Corrector.correct_spanish_text, Corrector.try_language_tool.
    rewrite Hb, Ht, Hc. reflexivity. }
  split; [exact Heq|].
  intros sp Hsp Htot. rewrite Heq, Hsp.
  apply dictionary_correct_total, Htot.
Qed.

(** After [setup_spell_tools] on the initial globals, a grammar
    backend excludes a dictionary backend. *)
Lemma setup_one_backend new_lt new_spell (g : globals Matches) :
  setup_spell_tools Matches new_lt new_spell (initial_globals Matches) = Ok g ->
  lt_tool g <> None -> spell g = None.
Proof.
  unfold setup_spell_tools. destruct new_lt as [t|[tag|tag]].
  - intros H _. injection H as <-. reflexivity.
  - destruct new_spell as [s|[tag'|tag']]; intros H; try discriminate;
      injection H as <-; simpl; congruence.
  - discriminate.
Qed.

End Backends.

(** *** Concrete backends *)

Import Examples.

Lemma grammar_failure_falls_to_dictionary_witness :
  correct_spanish_text unit latin1_db keep_text
    failing_then_tiny
    (lit "hila  mundo") = Ok (lit "hola mundo").
Proof.
  destruct (grammar_failure_falls_to_dictionary unit latin1_db keep_text
    failing_then_tiny
    (lit "hila  mundo") failing_tool 1 eq_refl eq_refl eq_refl) as [H _].
  rewrite H. reflexivity.
Defined.

(** C1 fails as stated: an exception of the dictionary backend is not
    caught. With both backends raising, the caller gets the exception
    of the dictionary lookup; so it does with the dictionary backend
    alone, the state [setup_spell_tools] leaves when the grammar
    backend cannot be constructed. *)
Lemma dictionary_failure_propagates :
  correct_spanish_text unit latin1_db keep_text both_failing (lit "hola")
    = Raise (Exception 2) /\
  setup_spell_tools unit (Raise (Exception 0)) (Ok failing_checker)
    (initial_globals unit) = Ok dictionary_failing /\
  correct_spanish_text unit latin1_db keep_text dictionary_failing (lit "hola")
    = Raise (Exception 2).
Proof. repeat split. Qed.

(** the example of the specification: the inverted exclamation mark
    (code point 161) and the exclamation mark stay in place *)
Lemma dictionary_keeps_affixes_witness :
  correct_token latin1_db tiny_checker (161%N :: lit "hila!") =
  Ok (161%N :: lit "hola!").
Proof.
  destruct (dictionary_keeps_affixes latin1_db tiny_checker (161%N :: lit "hila!"))
    as [_ H].
  destruct (H eq_refl) as (_ & _ & Hs).
  apply (Hs (lit "hola")); [reflexivity|discriminate].
Defined.

End CorrectorFacts.

(* ================================================================== *)
(** ** Facts about the layout engine *)

Module LayoutFacts.
Import Layout.

Local Open Scope Q_scope.

Lemma pages_app a b : pages (a ++ b) = (pages a + pages b)%nat.
Proof. unfold pages. now rewrite filter_app, length_app. Qed.

Lemma Qltb_false x y : Qltb x y = false -> y <= x.
Proof.
  unfold Qltb. intros H. apply negb_false_iff in H.
  now apply Qle_bool_iff.
Qed.

Section Page.

Variable simpleSplit : str -> str -> Q -> Q -> list str.
Variable font_name : str.
Variable font_size : Q.
Variable margins : Q * Q * Q * Q.

Local Abbreviation advance := (advance font_name font_size margins).
Local Abbreviation draw_lines := (draw_lines font_name font_size margins).
Local Abbreviation layout_lines :=
  (layout_lines simpleSplit font_name font_size margins).
Local Abbreviation write_wrapped_page :=
  (write_wrapped_page simpleSplit font_name font_size margins).
Local Abbreviation moves_of_lines :=
  (moves_of_lines simpleSplit font_name font_size margins).
Local Abbreviation moves := (moves simpleSplit font_name font_size margins).
Local Abbreviation breaks := (breaks font_name font_size margins).
Local Abbreviation cursor_after := (cursor_after font_name font_size margins).
Local Abbreviation bottom := (bottom margins).
Local Abbreviation top := (top margins).
Local Abbreviation left := (left margins).
Local Abbreviation line_h := (line_h font_size).

(** *** Pages and cursor moves *)

Lemma breaks_add a : forall b y,
  breaks (a + b) y = (breaks a y + breaks b (cursor_after a y))%nat.
Proof.
  induction a as [|a IH]; intros b y; [reflexivity|].
  cbn [Nat.add Layout.breaks Layout.cursor_after].
  destruct (advance y) as [ev y'] eqn:E. cbn [snd].
  rewrite IH. lia.
Qed.

Lemma breaks_succ n : forall y, (breaks n y <= breaks (S n) y)%nat.
Proof.
  induction n as [|n IH]; intros y; [cbn; lia|].
  change (breaks (S (S n)) y)
    with (let (ev, y') := advance y in (pages ev + breaks (S n) y')%nat).
  change (breaks (S n) y)
    with (let (ev, y') := advance y in (pages ev + breaks n y')%nat).
  destruct (advance y) as [ev y']. specialize (IH y'). lia.
Qed.

Lemma breaks_mono n m y : (n <= m)%nat -> (breaks n y <= breaks m y)%nat.
Proof.
  induction 1 as [|m Hle IH]; [lia|].
  pose proof (breaks_succ m y). lia.
Qed.

Lemma draw_lines_pages ws : forall y,
  pages (fst (draw_lines ws y)) = breaks (length ws) y /\
  snd (draw_lines ws y) = cursor_after (length ws) y.
Proof.
  induction ws as [|w rest IH]; intros y; [split; reflexivity|].
  cbn [Layout.draw_lines length Layout.breaks Layout.cursor_after].
  destruct (advance y) as [ev1 y1] eqn:E1. cbn [snd].
  destruct (IH y1) as [IHp IHc].
  destruct (draw_lines rest y1) as [ev2 y2]. cbn [fst snd] in *.
  split; [|exact IHc].
  change (DrawString left y w :: ev1 ++ ev2)
    with ([DrawString left y w] ++ ev1 ++ ev2).
  rewrite !pages_app, IHp. reflexivity.
Qed.

Lemma layout_lines_pages raw_lines : forall y,
  pages (layout_lines raw_lines y) = breaks (moves_of_lines raw_lines) y.
Proof.
  induction raw_lines as [|raw rest IH]; intros y; [reflexivity|].
  cbn [Layout.layout_lines Layout.moves_of_lines].
  destruct (strip (rstrip raw)) as [|c0 l0].
  - cbn [Layout.breaks]. destruct (advance y) as [ev y'].
    rewrite pages_app, IH. reflexivity.
  - rewrite breaks_add.
    destruct (draw_lines_pages
                (simpleSplit (rstrip raw) font_name font_size
                   (usable_w margins)) y) as [Hp Hc].
    destruct (draw_lines _ y) as [ev y']. cbn [fst snd] in *.
    rewrite pages_app, IH, Hp, Hc. reflexivity.
Qed.

(** The pages of one call: the last one, and one per page break. *)
Lemma write_wrapped_page_pages text :
  pages (write_wrapped_page text) =
  S (breaks (moves text) (page_h - top)).
Proof.
  unfold Layout.write_wrapped_page, Layout.moves.
  change (SetFont font_name font_size :: ?l)
    with ([SetFont font_name font_size] ++ l).
  destruct (is_blank text).
  - reflexivity.
  - rewrite !pages_app, layout_lines_pages. cbn. lia.
Qed.

(** C6. Every call seals at least one page, and sealing a page is the
    last thing it does. *)
Theorem layout_emits_a_page (text : str) :
  (1 <= pages (write_wrapped_page text))%nat /\
  exists evs, write_wrapped_page text = evs ++ [ShowPage].
Proof.
  split.
  - rewrite write_wrapped_page_pages. lia.
  - unfold Layout.write_wrapped_page. destruct (is_blank text).
    + now exists [SetFont font_name font_size].
    + exists (SetFont font_name font_size ::
              layout_lines (splitlines text) (page_h - top)).
      reflexivity.
Qed.

(** C5, as amended. For a fixed style the number of pages does not
    go down when the number of cursor moves (blank lines plus
    segments of wrapped lines) goes up. *)
Theorem pages_monotone_in_moves (t1 t2 : str) :
  (moves t1 <= moves t2)%nat ->
  (pages (write_wrapped_page t1) <= pages (write_wrapped_page t2))%nat.
Proof.
  intros H. rewrite !write_wrapped_page_pages.
  apply le_n_S, breaks_mono, H.
Qed.

(** *** Where lines are drawn *)

Local Abbreviation in_frame := (in_frame margins).

Hypothesis margins_fit : bottom <= page_h - top.
Hypothesis size_not_negative : 0 <= font_size.

Lemma line_h_not_negative : 0 <= line_h.
Proof. unfold Layout.line_h. nra. Qed.

Lemma advance_in_frame y :
  in_frame y -> in_frame (snd (advance y)) /\
  forall e, In e (fst (advance y)) -> drawn_at e = None.
Proof.
  intros [H1 H2]. unfold Layout.advance.
  destruct (Qltb (y - line_h) bottom) eqn:E; cbn [fst snd].
  - split; [split; [exact margins_fit|apply Qle_refl]|].
    intros e [<-|[<-|[]]]; reflexivity.
  - apply Qltb_false in E. pose proof line_h_not_negative.
    split; [split; lra|]. intros e [].
Qed.

Lemma draw_lines_in_frame ws : forall y,
  in_frame y ->
  in_frame (snd (draw_lines ws y)) /\
  forall e x y', In e (fst (draw_lines ws y)) -> drawn_at e = Some (x, y') ->
    x = left /\ in_frame y'.
Proof.
  induction ws as [|w rest IH]; intros y Hy.
  - split; [exact Hy|]. intros e x y' [].
  - cbn [Layout.draw_lines].
    destruct (advance_in_frame y Hy) as [Hy1 Hev1].
    destruct (advance y) as [ev1 y1]. cbn [fst snd] in *.
    destruct (IH y1 Hy1) as [Hy2 Hev2].
    destruct (draw_lines rest y1) as [ev2 y2]. cbn [fst snd] in *.
    split; [exact Hy2|].
    intros e x y' [<-|Hin] Hd.
    + injection Hd as <- <-. split; [reflexivity|exact Hy].
    + apply in_app_or in Hin as [Hin|Hin].
      * rewrite (Hev1 _ Hin) in Hd. discriminate.
      * eapply Hev2; eassumption.
Qed.

Lemma layout_lines_in_frame raw_lines : forall y e x y',
  in_frame y ->
  In e (layout_lines raw_lines y) -> drawn_at e = Some (x, y') ->
  x = left /\ in_frame y'.
Proof.
  induction raw_lines as [|raw rest IH]; intros y e x y' Hy Hin Hd; [destruct Hin|].
  cbn [Layout.layout_lines] in Hin.
  destruct (strip (rstrip raw)) as [|c0 l0].
  - destruct (advance_in_frame y Hy) as [Hy1 Hev1].
    destruct (advance y) as [ev1 y1]. cbn [fst snd] in *.
    apply in_app_or in Hin as [Hin|Hin].
    + rewrite (Hev1 _ Hin) in Hd. discriminate.
    + eapply IH; eassumption.
  - destruct (draw_lines_in_frame
                (simpleSplit (rstrip raw) font_name font_size
                   (usable_w margins)) y Hy) as [Hy1 Hev1].
    destruct (draw_lines _ y) as [ev1 y1]. cbn [fst snd] in *.
    apply in_app_or in Hin as [Hin|Hin].
    + eapply Hev1; eassumption.
    + eapply IH; eassumption.
Qed.

End Page.

Import Examples.

Lemma pages_monotone_in_moves_witness :
  (pages (write_wrapped_page one_segment helvetica 11 default_margins (lit "a"))
   <= pages (write_wrapped_page one_segment helvetica 11 default_margins
               (lit "a" ++ [NL] ++ lit "b")))%nat.
Proof.
  apply (pages_monotone_in_moves one_segment helvetica 11 default_margins
           (lit "a") (lit "a" ++ [NL] ++ lit "b")).
  vm_compute. lia.
Defined.

(** C5 fails as stated: a letter followed by sixty line breaks needs
    a second page, whatever the wrapping of its one line, while a
    hundred spaces give a single blank page; so does, with its line
    unwrapped, a letter followed by ninety-nine spaces. *)
Lemma pages_not_monotone_in_length :
  let t1 := lit "a" ++ repeat NL 60 in
  let t2 := repeat SP 100 in
  let t3 := lit "a" ++ repeat SP 99 in
  (length t1 <= length t2)%nat /\
  (forall simpleSplit font,
    (pages (write_wrapped_page simpleSplit font 11 default_margins t2)
     < pages (write_wrapped_page simpleSplit font 11 default_margins t1))%nat) /\
  (length t1 <= length t3)%nat /\
  pages (write_wrapped_page one_segment helvetica 11 default_margins t1) = 2%nat /\
  pages (write_wrapped_page one_segment helvetica 11 default_margins t3) = 1%nat.
Proof.
  intros t1 t2 t3. split; [vm_compute; lia|].
  split; [|split; [vm_compute; lia|split; vm_compute; reflexivity]].
  intros simpleSplit font. rewrite !write_wrapped_page_pages.
  assert (H2 : moves simpleSplit font 11 default_margins t2 = 0%nat)
    by reflexivity.
  assert (H1 : exists k, moves simpleSplit font 11 default_margins t1
                         = (k + 59)%nat).
  { eexists. vm_compute. reflexivity. }
  destruct H1 as [k H1]. rewrite H1, H2.
  pose proof (breaks_mono font 11 default_margins 59 (k + 59)
                (page_h - top default_margins) ltac:(lia)) as Hm.
  assert (H59 : breaks font 11 default_margins 59
                  (page_h - top default_margins) = 1%nat)
    by (vm_compute; reflexivity).
  cbn [breaks] in *. lia.
Qed.

(** C10. Every line is drawn at the left margin, at a height from the
    bottom margin up to the page height less the top margin: for
    every style whose margins leave room on the page and whose font
    size is not negative, and so, without any assumption, for the
    style of the one call the program makes (size 11, margins of 50
    points on A4). *)
Theorem lines_drawn_within_margins :
  (forall simpleSplit font_name font_size margins text e x y,
     bottom margins <= page_h - top margins ->
     0 <= font_size ->
     In e (write_wrapped_page simpleSplit font_name font_size margins text) ->
     drawn_at e = Some (x, y) ->
     x = left margins /\ bottom margins <= y /\ y <= page_h - top margins) /\
  (forall simpleSplit font_name text e x y,
     In e (write_wrapped_page simpleSplit font_name 11 default_margins text) ->
     drawn_at e = Some (x, y) ->
     x = 50 /\ 50 <= y /\ y <= page_h - 50).
Proof.
  assert (General : forall simpleSplit font_name font_size margins text e x y,
     bottom margins <= page_h - top margins ->
     0 <= font_size ->
     In e (write_wrapped_page simpleSplit font_name font_size margins text) ->
     drawn_at e = Some (x, y) ->
     x = left margins /\ bottom margins <= y /\ y <= page_h - top margins).
  { intros simpleSplit font_name font_size margins text e x y Hfit Hsize.
    unfold write_wrapped_page. intros [<-|Hin] Hd; [discriminate|].
    destruct (is_blank text).
    - destruct Hin as [<-|[]]. discriminate.
    - apply in_app_or in Hin as [Hin|[<-|[]]]; [|discriminate].
      eapply layout_lines_in_frame; [exact Hfit|exact Hsize| |exact Hin|exact Hd].
      split; [exact Hfit|apply Qle_refl]. }
  split; [exact General|].
  intros simpleSplit font_name text e x y.
  apply (General simpleSplit font_name 11 default_margins text e x y);
    vm_compute; discriminate.
Qed.

(** the one line of a short text, in the style of the program *)
Lemma lines_drawn_within_margins_witness :
  let y0 := page_h - 50 in
  let e := DrawString 50 y0 (lit "hola") in
  In e (write_wrapped_page one_segment helvetica 11 default_margins (lit "hola")) /\
  50 = 50 /\ 50 <= y0 /\ y0 <= page_h - 50.
Proof.
  intros y0 e.
  assert (Hin : In e (write_wrapped_page one_segment helvetica 11
                        default_margins (lit "hola")))
    by (vm_compute; auto).
  split; [exact Hin|].
  exact (proj2 lines_drawn_within_margins one_segment helvetica (lit "hola")
           e 50 y0 Hin eq_refl).
Defined.

End LayoutFacts.

(* ================================================================== *)
(** ** Facts about the page loop *)

Module PipelineFacts.
Import Pipeline.

Local Open Scope Q_scope.

(** *** Layout makes drawing calls only *)

Section Drawing.

Variable simpleSplit : str -> str -> Q -> Q -> list str.
Variable font_name : str.
Variable font_size : Q.
Variable margins : Q * Q * Q * Q.

Lemma advance_drawing y :
  forallb is_drawing (fst (Layout.advance font_name font_size margins y)) = true.
Proof.
  unfold Layout.advance.
  destruct (Layout.Qltb _ _); reflexivity.
Qed.

Lemma draw_lines_drawing ws : forall y,
  forallb is_drawing
    (fst (Layout.draw_lines font_name font_size margins ws y)) = true.
Proof.
  induction ws as [|w rest IH]; intros y; [reflexivity|].
  cbn [Layout.draw_lines].
  pose proof (advance_drawing y) as H1.
  destruct (Layout.advance font_name font_size margins y) as [ev1 y1].
  specialize (IH y1).
  destruct (Layout.draw_lines font_name font_size margins rest y1) as [ev2 y2].
  cbn [fst] in *. cbn [forallb is_drawing]. rewrite forallb_app, H1, IH.
  reflexivity.
Qed.

Lemma layout_lines_drawing raw_lines : forall y,
  forallb is_drawing
    (Layout.layout_lines simpleSplit font_name font_size margins raw_lines y)
  = true.
Proof.
  induction raw_lines as [|raw rest IH]; intros y; [reflexivity|].
  cbn [Layout.layout_lines].
  destruct (strip (rstrip raw)) as [|c0 l0].
  - pose proof (advance_drawing y) as H1.
    destruct (Layout.advance font_name font_size margins y) as [ev1 y1].
    cbn [fst] in H1. now rewrite forallb_app, H1, IH.
  - pose proof (draw_lines_drawing
      (simpleSplit (rstrip raw) font_name font_size (Layout.usable_w margins)) y)
      as H1.
    destruct (Layout.draw_lines font_name font_size margins _ y) as [ev1 y1].
    cbn [fst] in H1. now rewrite forallb_app, H1, IH.
Qed.

Lemma write_wrapped_page_drawing text :
  forallb is_drawing
    (Layout.write_wrapped_page simpleSplit font_name font_size margins text)
  = true.
Proof.
  unfold Layout.write_wrapped_page. cbn [forallb is_drawing].
  destruct (is_blank text); [reflexivity|].
  now rewrite forallb_app, layout_lines_drawing.
Qed.

End Drawing.

Lemma drawing_on_canvas l :
  forallb is_drawing l = true -> filter on_canvas l = l.
Proof.
  induction l as [|e l IH]; [reflexivity|].
  cbn [forallb filter]. intros H. apply andb_true_iff in H as [He Hl].
  destruct e; try discriminate; cbn; now rewrite IH.
Qed.

Lemma drawing_not_rendered l :
  forallb is_drawing l = true -> rendered l = [].
Proof.
  induction l as [|e l IH]; [reflexivity|].
  cbn [forallb]. intros H. apply andb_true_iff in H as [He Hl].
  unfold rendered in *. cbn [flat_map].
  destruct e; try discriminate; cbn; now apply IH.
Qed.

Lemma drawing_no_save l :
  forallb is_drawing l = true -> ~ In Save l.
Proof.
  intros H Hin. rewrite forallb_forall in H. specialize (H _ Hin). discriminate.
Qed.

Lemma rendered_app a b : rendered (a ++ b) = rendered a ++ rendered b.
Proof. unfold rendered. apply flat_map_app. Qed.

(** *** Loops *)

Lemma for_each_done {A} (xs : list A) (body : A -> M unit)
    (out : A -> list event) :
  (forall x log, In x xs -> body x log = (log ++ out x, Ok tt)) ->
  forall log, for_each xs body log = (log ++ flat_map out xs, Ok tt).
Proof.
  induction xs as [|x rest IH]; intros Hb log.
  - cbn. now rewrite app_nil_r.
  - cbn [for_each flat_map]. unfold bind.
    rewrite (Hb x log (or_introl eq_refl)).
    rewrite IH, <- app_assoc; [reflexivity|].
    intros y l Hy. apply Hb. now right.
Qed.

Lemma for_each_raises {A} (pre post : list A) (x : A) (body : A -> M unit)
    (out : A -> list event) (tail : list event) (e : exn) :
  (forall y log, In y pre -> body y log = (log ++ out y, Ok tt)) ->
  (forall log, body x log = (log ++ tail, Raise e)) ->
  forall log,
    for_each (pre ++ x :: post) body log =
    (log ++ flat_map out pre ++ tail, Raise e).
Proof.
  induction pre as [|y pre IH]; intros Hpre Hx log.
  - cbn [app for_each flat_map]. unfold bind. now rewrite Hx.
  - cbn [app for_each flat_map]. unfold bind.
    rewrite (Hpre y log (or_introl eq_refl)).
    rewrite IH, <- !app_assoc; [reflexivity| |exact Hx].
    intros z l Hz. apply Hpre. now right.
Qed.

Lemma range_split a i b :
  (a <= i < b)%nat -> range a b = range a i ++ i :: range (S i) b.
Proof.
  intros H. unfold range.
  replace (b - a)%nat with ((i - a) + S (b - S i))%nat by lia.
  rewrite seq_app. cbn [seq].
  replace (a + (i - a))%nat with i by lia. reflexivity.
Qed.


Section Run.

Variable Matches : Type.
Variable db : unicode_db.
Variable utils_correct : str -> Matches -> result str.
Variable simpleSplit : str -> str -> Q -> Q -> list str.
Variable image_to_string : Pixmap -> str -> result str.
Variable g : Corrector.globals Matches.

Local Abbreviation process_page :=
  (process_page Matches db utils_correct simpleSplit image_to_string g).
Local Abbreviation process :=
  (process Matches db utils_correct simpleSplit image_to_string g).
Local Abbreviation half_text :=
  (half_text Matches db utils_correct image_to_string g).
Local Abbreviation layout := (layout simpleSplit).
Local Abbreviation page_layout :=
  (page_layout Matches db utils_correct simpleSplit image_to_string g).
Local Abbreviation page_calls :=
  (page_calls Matches db utils_correct simpleSplit image_to_string g).
Local Abbreviation page_completes :=
  (page_completes Matches db utils_correct image_to_string g).
Local Abbreviation recognizer_raises :=
  (recognizer_raises Matches db utils_correct image_to_string g).

Lemma layout_drawing self text : forallb is_drawing (layout self text) = true.
Proof. apply write_wrapped_page_drawing. Qed.

(** One turn of the page loop, by the outcome of each step. *)
Lemma process_page_run self doc i page log :
  nth_error doc i = Some page ->
  process_page self doc i log =
  let L := left_pix self i page in
  let R := right_pix self i page in
  let head := [GetPixmap L; GetPixmap R; ImageToString L spa] in
  match image_to_string L spa with
  | Raise e => (log ++ head, Raise e)
  | Ok left_raw =>
      match Corrector.correct_spanish_text Matches db utils_correct g left_raw with
      | Raise e => (log ++ head, Raise e)
      | Ok left_text =>
          match image_to_string R spa with
          | Raise e => (log ++ head ++ [ImageToString R spa], Raise e)
          | Ok right_raw =>
              match Corrector.correct_spanish_text Matches db utils_correct g
                      right_raw with
              | Raise e => (log ++ head ++ [ImageToString R spa], Raise e)
              | Ok right_text =>
                  (log ++ head ++ [ImageToString R spa]
                       ++ layout self left_text ++ layout self right_text,
                   Ok tt)
              end
          end
      end
  end.
Proof.
  intros Hn.
  unfold Pipeline.process_page, Pipeline.get_pixmap, Pipeline.ocr_half_pixmap,
    Pipeline.correct_spanish_text, Pipeline.write_wrapped_page,
    bind, tell, lift, ret.
  rewrite Hn. cbv zeta.
  fold (pixmap_of self i (left_clip page)) (pixmap_of self i (right_clip page)).
  fold (left_pix self i page) (right_pix self i page).
  destruct (image_to_string (left_pix self i page) spa) as [lraw|e];
    [|now rewrite <- !app_assoc].
  destruct (Corrector.correct_spanish_text _ _ _ _ lraw) as [lt|e];
    [|now rewrite <- !app_assoc].
  destruct (image_to_string (right_pix self i page) spa) as [rraw|e];
    [|now rewrite <- !app_assoc].
  destruct (Corrector.correct_spanish_text _ _ _ _ rraw) as [rt|e];
    now rewrite <- !app_assoc.
Qed.

Lemma process_page_completes self doc j log :
  page_completes self doc j ->
  process_page self doc j log = (log ++ page_calls self doc j, Ok tt).
Proof.
  intros (page & lt & rt & Hn & Hl & Hr).
  rewrite (process_page_run self doc j page log Hn). cbv zeta.
  unfold Pipeline.page_calls, Pipeline.page_layout. rewrite Hn, Hl, Hr.
  unfold Pipeline.half_text in Hl, Hr.
  destruct (image_to_string (left_pix self j page) spa) as [lraw|e];
    [|discriminate].
  rewrite Hl.
  destruct (image_to_string (right_pix self j page) spa) as [rraw|e];
    [|discriminate].
  rewrite Hr. reflexivity.
Qed.

Lemma page_calls_on_canvas self doc j :
  filter on_canvas (page_calls self doc j) = page_layout self doc j.
Proof.
  unfold Pipeline.page_calls, Pipeline.page_layout.
  destruct (nth_error doc j) as [page|]; [|reflexivity].
  cbn [app filter on_canvas].
  apply drawing_on_canvas.
  destruct (half_text (left_pix self j page)) as [lt|]; [|reflexivity].
  destruct (half_text (right_pix self j page)) as [rt|]; [|reflexivity].
  now rewrite forallb_app, !layout_drawing.
Qed.

Lemma page_layout_drawing self doc j :
  forallb is_drawing (page_layout self doc j) = true.
Proof.
  unfold Pipeline.page_layout.
  destruct (nth_error doc j) as [page|]; [|reflexivity].
  destruct (half_text (left_pix self j page)) as [lt|]; [|reflexivity].
  destruct (half_text (right_pix self j page)) as [rt|]; [|reflexivity].
  now rewrite forallb_app, !layout_drawing.
Qed.

Lemma page_calls_rendered self doc j x :
  In x (rendered (page_calls self doc j)) -> x = j.
Proof.
  unfold Pipeline.page_calls.
  destruct (nth_error doc j) as [page|]; [|intros []].
  rewrite rendered_app, (drawing_not_rendered _ (page_layout_drawing self doc j)).
  cbn. intuition.
Qed.

Lemma page_calls_no_save self doc j : ~ In Save (page_calls self doc j).
Proof.
  unfold Pipeline.page_calls.
  destruct (nth_error doc j) as [page|]; [|intros []].
  intros H. apply in_app_or in H as [H|H].
  - cbn in H. intuition congruence.
  - exact (drawing_no_save _ (page_layout_drawing self doc j) H).
Qed.

(** What [process_page] leaves in the log when the recognition engine
    raises on one half. *)
Lemma process_page_raises self doc i page s e log :
  nth_error doc i = Some page ->
  recognizer_raises self i page s e ->
  process_page self doc i log =
  (log ++ calls_before_raise self i page s, Raise e).
Proof.
  intros Hn Hr. rewrite (process_page_run self doc i page log Hn). cbv zeta.
  destruct s; cbn [Pipeline.recognizer_raises] in Hr.
  - rewrite Hr. reflexivity.
  - destruct Hr as [[lt Hl] Hr]. unfold Pipeline.half_text in Hl.
    destruct (image_to_string (left_pix self i page) spa) as [lraw|e'];
      [|discriminate].
    rewrite Hl, Hr. reflexivity.
Qed.

Lemma page_calls_shape self doc j page lt rt :
  nth_error doc j = Some page ->
  half_text (left_pix self j page) = Ok lt ->
  half_text (right_pix self j page) = Ok rt ->
  page_calls self doc j =
  [GetPixmap (left_pix self j page); GetPixmap (right_pix self j page);
   ImageToString (left_pix self j page) spa;
   ImageToString (right_pix self j page) spa]
  ++ layout self lt ++ layout self rt.
Proof.
  intros Hn Hl Hr. unfold Pipeline.page_calls, Pipeline.page_layout.
  now rewrite Hn, Hl, Hr.
Qed.

Lemma layout_pages self text : (1 <= pages (layout self text))%nat.
Proof.
  unfold Pipeline.layout. rewrite LayoutFacts.write_wrapped_page_pages. lia.
Qed.

(** C7. For a page of width [w] and height [h], the first two calls
    of a turn of the page loop render the clip from (0, 0) to
    (w/2, h) and then the clip from (w/2, 0) to (w, h), both scaled by
    dpi/72 along x and along y and without alpha; the turn renders
    nothing else. *)
Theorem halves_clipped_and_scaled self doc i page log :
  nth_error doc i = Some page ->
  let w := rect_width page in
  let h := rect_height page in
  let s := inject_Z (dpi self) / 72 in
  let m := {| scale_x := s; scale_y := s |} in
  let L := {| pix_page := i; pix_matrix := m;
              pix_clip := {| x0 := 0; y0 := 0; x1 := w / 2; y1 := h |};
              pix_alpha := false |} in
  let R := {| pix_page := i; pix_matrix := m;
              pix_clip := {| x0 := w / 2; y0 := 0; x1 := w; y1 := h |};
              pix_alpha := false |} in
  exists rest,
    fst (process_page self doc i log) = log ++ GetPixmap L :: GetPixmap R :: rest /\
    rendered rest = [].
Proof.
  intros Hn w h s m L R.
  rewrite (process_page_run self doc i page log Hn). cbv zeta.
  change (left_pix self i page) with L. change (right_pix self i page) with R.
  destruct (image_to_string L spa) as [lraw|e];
    [|exists [ImageToString L spa]; split; reflexivity].
  destruct (Corrector.correct_spanish_text _ _ _ _ lraw) as [lt|e];
    [|exists [ImageToString L spa]; split; reflexivity].
  destruct (image_to_string R spa) as [rraw|e];
    [|exists [ImageToString L spa; ImageToString R spa]; split; reflexivity].
  destruct (Corrector.correct_spanish_text _ _ _ _ rraw) as [rt|e];
    [|exists [ImageToString L spa; ImageToString R spa]; split; reflexivity].
  exists ([ImageToString L spa; ImageToString R spa]
          ++ layout self lt ++ layout self rt).
  split; [reflexivity|].
  rewrite !rendered_app, !(drawing_not_rendered _ (layout_drawing self _)).
  reflexivity.
Qed.

Lemma pages_calls_on_canvas self doc js :
  filter on_canvas (flat_map (page_calls self doc) js) =
  flat_map (page_layout self doc) js.
Proof.
  induction js as [|j js IH]; [reflexivity|].
  cbn [flat_map]. now rewrite filter_app, page_calls_on_canvas, IH.
Qed.

(** C2, as amended. When the recognition engine raises on a half of
    input page [i], after the pages before it went through, [process]
    ends with that exception: [save] is not called, the canvas holds
    the output pages of the input pages before [i] and nothing of page
    [i], and no page after [i] is rendered. *)
Theorem recognizer_failure_aborts self doc i page s e :
  (start_page self <= i)%nat ->
  nth_error doc i = Some page ->
  (forall j, (start_page self <= j < i)%nat -> page_completes self doc j) ->
  recognizer_raises self i page s e ->
  exists log,
    process self doc = (log, Raise e) /\
    ~ In Save log /\
    filter on_canvas log =
      flat_map (page_layout self doc) (range (start_page self) i) /\
    (forall j, In j (rendered log) -> (j <= i)%nat).
Proof.
  intros Hs Hn Hpre Hr.
  assert (Hlen : (i < length doc)%nat)
    by (apply nth_error_Some; congruence).
  set (pre := range (start_page self) i).
  set (tail := calls_before_raise self i page s).
  assert (Hin : forall j, In j pre -> (start_page self <= j < i)%nat).
  { intros j Hj. apply in_seq in Hj. lia. }
  assert (Hrun : process self doc =
                 ([] ++ flat_map (page_calls self doc) pre ++ tail, Raise e)).
  { unfold Pipeline.process, bind.
    rewrite (range_split (start_page self) i (length doc)) by lia.
    rewrite (for_each_raises pre (range (S i) (length doc)) i
               (process_page self doc) (page_calls self doc) tail e).
    - reflexivity.
    - intros j log Hj. apply process_page_completes, Hpre, Hin, Hj.
    - intros log. now apply process_page_raises. }
  eexists. split; [exact Hrun|]. cbn [app].
  assert (Htail : filter on_canvas tail = [] /\ ~ In Save tail /\
                  forall j, In j (rendered tail) -> j = i).
  { unfold tail, calls_before_raise. destruct s; cbn; intuition congruence. }
  destruct Htail as (Ht1 & Ht2 & Ht3).
  split; [|split].
  - intros H. apply in_app_or in H as [H|H]; [|exact (Ht2 H)].
    apply in_flat_map in H as (j & _ & H).
    exact (page_calls_no_save self doc j H).
  - now rewrite filter_app, Ht1, app_nil_r, pages_calls_on_canvas.
  - intros j Hj. rewrite rendered_app in Hj.
    apply in_app_or in Hj as [Hj|Hj]; [|rewrite (Ht3 _ Hj); lia].
    unfold rendered in Hj. apply in_flat_map in Hj as (ev & Hev & Hj).
    apply in_flat_map in Hev as (k & Hk & Hev).
    assert (Hjk : j = k).
    { apply (page_calls_rendered self doc k). unfold rendered.
      apply in_flat_map. now exists ev. }
    specialize (Hin k Hk). lia.
Qed.

(** C9. With the first page skipped and every half of pages 2 and 3
    yielding its text, a run over three input pages renders pages 2
    and 3 only (indices 1 and 2), lays out for each the left text and
    then the right text, each on one output page at least, and saves. *)
Theorem three_pages_skip_first self p0 p1 p2 l1 r1 l2 r2 :
  omit_first self = true ->
  half_text (left_pix self 1 p1) = Ok l1 ->
  half_text (right_pix self 1 p1) = Ok r1 ->
  half_text (left_pix self 2 p2) = Ok l2 ->
  half_text (right_pix self 2 p2) = Ok r2 ->
  exists log,
    process self [p0; p1; p2] = (log, Ok tt) /\
    rendered log = [1; 1; 2; 2]%nat /\
    filter on_canvas log =
      (layout self l1 ++ layout self r1) ++
      (layout self l2 ++ layout self r2) ++ [Save] /\
    (1 <= pages (layout self l1))%nat /\ (1 <= pages (layout self r1))%nat /\
    (1 <= pages (layout self l2))%nat /\ (1 <= pages (layout self r2))%nat.
Proof.
  intros Ho H1l H1r H2l H2r.
  set (doc := [p0; p1; p2]).
  assert (Hc1 : page_completes self doc 1)
    by (exists p1, l1, r1; repeat split; assumption).
  assert (Hc2 : page_completes self doc 2)
    by (exists p2, l2, r2; repeat split; assumption).
  assert (Hrun : process self doc =
    ([] ++ flat_map (page_calls self doc) [1; 2]%nat ++ [Save], Ok tt)).
  { unfold Pipeline.process, bind, start_page. rewrite Ho.
    change (range 1 (length doc)) with [1; 2]%nat.
    rewrite (for_each_done [1; 2]%nat _ (page_calls self doc)).
    - unfold tell. now rewrite <- app_assoc.
    - intros j log [<-|[<-|[]]]; now apply process_page_completes. }
  eexists. split; [exact Hrun|].
  cbn [app flat_map]. rewrite app_nil_r.
  rewrite (page_calls_shape self doc 1 p1 l1 r1 eq_refl H1l H1r).
  rewrite (page_calls_shape self doc 2 p2 l2 r2 eq_refl H2l H2r).
  repeat split; try apply layout_pages.
  - rewrite !rendered_app, !(drawing_not_rendered _ (layout_drawing self _)).
    reflexivity.
  - rewrite !filter_app, !(drawing_on_canvas _ (layout_drawing self _)).
    cbn [filter on_canvas app]. now rewrite <- !app_assoc.
Qed.

End Run.


(** *** Concrete runs *)

Import Examples.

Lemma halves_clipped_and_scaled_witness :
  exists rest,
    fst (Pipeline.process_page unit latin1_db keep_text Layout.one_segment
           ocr_hola (Corrector.initial_globals unit) (processor true)
           [some_page; some_page] 1 []) =
    [] ++ GetPixmap {| pix_page := 1;
                       pix_matrix := {| scale_x := 300 / 72; scale_y := 300 / 72 |};
                       pix_clip := {| x0 := 0; y0 := 0; x1 := 600 / 2; y1 := 800 |};
                       pix_alpha := false |}
       :: GetPixmap {| pix_page := 1;
                       pix_matrix := {| scale_x := 300 / 72; scale_y := 300 / 72 |};
                       pix_clip := {| x0 := 600 / 2; y0 := 0; x1 := 600; y1 := 800 |};
                       pix_alpha := false |}
       :: rest /\
    rendered rest = [].
Proof.
  exact (halves_clipped_and_scaled unit latin1_db keep_text Layout.one_segment
           ocr_hola (Corrector.initial_globals unit) (processor true)
           [some_page; some_page] 1 some_page [] eq_refl).
Defined.

Lemma recognizer_failure_aborts_witness :
  exists log,
    run (ocr_failing_on_left 2) true [some_page; some_page; some_page]
      = (log, Raise (Exception 7)) /\
    ~ In Save log /\
    filter on_canvas log =
      flat_map (Pipeline.page_layout unit latin1_db keep_text Layout.one_segment
                  (ocr_failing_on_left 2) (Corrector.initial_globals unit)
                  (processor true) [some_page; some_page; some_page])
               (range 1 2) /\
    (forall j, In j (rendered log) -> (j <= 2)%nat).
Proof.
  apply (recognizer_failure_aborts unit latin1_db keep_text Layout.one_segment
           (ocr_failing_on_left 2) (Corrector.initial_globals unit) (processor true)
           [some_page; some_page; some_page] 2 some_page Left (Exception 7)).
  - cbn. lia.
  - reflexivity.
  - intros j Hj. cbn in Hj. assert (j = 1%nat) as -> by lia.
    exists some_page, (lit "hola"), (lit "hola").
    repeat split; reflexivity.
  - reflexivity.
Defined.

(** C2 fails as stated: with the recognition engine raising on the
    left half of the first of two input pages, the run ends with the
    exception; no output page is sealed, the second input page is
    never rendered and [save] is not called. *)
Lemma recognizer_failure_loses_the_run :
  let out := run (ocr_failing_on_left 0) false [some_page; some_page] in
  snd out = Raise (Exception 7) /\
  pages (fst out) = 0%nat /\
  rendered (fst out) = [0; 0]%nat /\
  ~ In Save (fst out).
Proof.
  vm_compute. repeat split; intuition congruence.
Qed.

Lemma three_pages_skip_first_witness :
  exists log,
    run ocr_hola true [some_page; some_page; some_page] = (log, Ok tt) /\
    rendered log = [1; 1; 2; 2]%nat /\
    filter on_canvas log =
      (Pipeline.layout Layout.one_segment (processor true) (lit "hola") ++
       Pipeline.layout Layout.one_segment (processor true) (lit "hola")) ++
      (Pipeline.layout Layout.one_segment (processor true) (lit "hola") ++
       Pipeline.layout Layout.one_segment (processor true) (lit "hola")) ++
      [Save] /\
    (1 <= pages (Pipeline.layout Layout.one_segment (processor true) (lit "hola")))%nat /\
    (1 <= pages (Pipeline.layout Layout.one_segment (processor true) (lit "hola")))%nat /\
    (1 <= pages (Pipeline.layout Layout.one_segment (processor true) (lit "hola")))%nat /\
    (1 <= pages (Pipeline.layout Layout.one_segment (processor true) (lit "hola")))%nat.
Proof.
  exact (three_pages_skip_first unit latin1_db keep_text Layout.one_segment
           ocr_hola (Corrector.initial_globals unit) (processor true)
           some_page some_page some_page
           (lit "hola") (lit "hola") (lit "hola") (lit "hola")
           eq_refl eq_refl eq_refl eq_refl eq_refl).
Defined.

End PipelineFacts.

(* ================================================================== *)
(** ** More about the normalizer *)

Module NormalizerMore.
Import Normalizer Reading NormalizerFacts.

Lemma subseq_refl {A} (l : list A) : subseq l l.
Proof. induction l; constructor; assumption. Qed.

Lemma subseq_trans {A} (a b c : list A) :
  subseq a b -> subseq b c -> subseq a c.
Proof.
  intros Hab Hbc. revert a Hab.
  induction Hbc as [|x b c Hbc IH|x b c Hbc IH]; intros a Hab.
  - exact Hab.
  - constructor. apply IH, Hab.
  - inversion Hab; subst.
    + constructor. apply IH. assumption.
    + apply subseq_take. apply IH. assumption.
Qed.

Lemma subseq_length {A} (a b : list A) : subseq a b -> length a <= length b.
Proof. induction 1; simpl; lia. Qed.

Lemma subseq_in {A} (a b : list A) x : subseq a b -> In x a -> In x b.
Proof.
  induction 1 as [|y a b H IH|y a b H IH]; simpl; intuition.
Qed.

Lemma join_hyphen_subseq s : subseq (join_hyphen s) s.
Proof.
  by_length_induction s; [constructor|constructor|].
  destruct r as [|d r']; [simpl; apply subseq_refl|].
  rewrite join_hyphen_step. destruct (is_hyphen c && is_nl d).
  - do 2 apply subseq_skip. apply IH. simpl in Hle. lia.
  - apply subseq_take. apply IH. lia.
Qed.

Lemma strip_trailing_subseq s : subseq (strip_trailing s) s.
Proof.
  induction s as [|c r IH]; [constructor|].
  simpl. destruct (is_sp_tab c && before_nl r); constructor; exact IH.
Qed.

Lemma squeeze_nl_subseq s : forall k, subseq (squeeze_nl k s) s.
Proof.
  induction s as [|c r IH]; intros k; [constructor|].
  simpl. destruct (is_nl c); [destruct (k <? 2)|]; constructor; apply IH.
Qed.

Lemma squeeze_sp_subseq s : forall b, subseq (squeeze_sp b s) s.
Proof.
  induction s as [|c r IH]; intros b; [constructor|].
  simpl. destruct (is_sp c); [destruct b|]; constructor; apply IH.
Qed.

(** X1. The normalizer only deletes characters: its result is the
    text with some characters left out, so it is no longer than the
    text and holds no character the text did not hold. *)
Theorem normalize_only_deletes (t : str) :
  subseq (normalize t) t /\
  length (normalize t) <= length t /\
  (forall c, In c (normalize t) -> In c t).
Proof.
  assert (H : subseq (normalize t) t).
  { rewrite normalize_scan.
    eapply subseq_trans; [apply squeeze_sp_subseq|].
    eapply subseq_trans; [apply squeeze_nl_subseq|].
    eapply subseq_trans; [apply strip_trailing_subseq|].
    apply join_hyphen_subseq. }
  split; [exact H|]. split.
  - apply subseq_length, H.
  - intros c. apply subseq_in, H.
Qed.

(** *** What is never deleted *)

Lemma ink_cons_layout c s : is_layout_char c = true -> ink (c :: s) = ink s.
Proof. unfold ink. simpl. intros ->. reflexivity. Qed.

Lemma ink_cons_other c s :
  is_layout_char c = false -> ink (c :: s) = c :: ink s.
Proof. unfold ink. simpl. intros ->. reflexivity. Qed.

Lemma hyphen_is_layout c : is_hyphen c = true -> is_layout_char c = true.
Proof. unfold is_layout_char. intros ->. reflexivity. Qed.

Lemma blank_is_layout c : is_sp_tab c = true -> is_layout_char c = true.
Proof. unfold is_layout_char. intros ->. now rewrite orb_true_r. Qed.

Lemma nl_is_layout c : is_nl c = true -> is_layout_char c = true.
Proof. unfold is_layout_char. intros ->. now rewrite !orb_true_r. Qed.

Lemma join_hyphen_ink s : ink (join_hyphen s) = ink s.
Proof.
  by_length_induction s.
  destruct r as [|d r']; [reflexivity|].
  rewrite join_hyphen_step. destruct (is_hyphen c && is_nl d) eqn:E.
  - apply andb_true_iff in E as [Ec Ed].
    rewrite (ink_cons_layout c) by now apply hyphen_is_layout.
    rewrite (ink_cons_layout d) by now apply nl_is_layout.
    apply IH. simpl in Hle. lia.
  - destruct (is_layout_char c) eqn:El.
    + rewrite !(ink_cons_layout c) by exact El. apply IH. lia.
    + rewrite !(ink_cons_other c) by exact El. f_equal. apply IH. lia.
Qed.

Lemma strip_trailing_ink s : ink (strip_trailing s) = ink s.
Proof.
  induction s as [|c r IH]; [reflexivity|].
  cbn [strip_trailing]. destruct (is_sp_tab c) eqn:Eb; cbn [andb].
  - destruct (before_nl r).
    + now rewrite (ink_cons_layout c) by now apply blank_is_layout.
    + rewrite !(ink_cons_layout c) by now apply blank_is_layout. exact IH.
  - destruct (is_layout_char c) eqn:El.
    + rewrite !(ink_cons_layout c) by exact El. exact IH.
    + rewrite !(ink_cons_other c) by exact El. now rewrite IH.
Qed.

Lemma squeeze_nl_ink s : forall k, ink (squeeze_nl k s) = ink s.
Proof.
  induction s as [|c r IH]; intros k; [reflexivity|].
  cbn [squeeze_nl]. destruct (is_nl c) eqn:En.
  - rewrite (ink_cons_layout c r) by now apply nl_is_layout.
    destruct (k <? 2); [|apply IH].
    rewrite (ink_cons_layout c) by now apply nl_is_layout. apply IH.
  - destruct (is_layout_char c) eqn:El.
    + rewrite !(ink_cons_layout c) by exact El. apply IH.
    + rewrite !(ink_cons_other c) by exact El. now rewrite IH.
Qed.

Lemma squeeze_sp_ink s : forall b, ink (squeeze_sp b s) = ink s.
Proof.
  induction s as [|c r IH]; intros b; [reflexivity|].
  cbn [squeeze_sp]. destruct (is_sp c) eqn:Es.
  - assert (El : is_layout_char c = true)
      by now apply blank_is_layout, sp_is_blank.
    rewrite (ink_cons_layout c r) by exact El.
    destruct b; [apply IH|].
    rewrite (ink_cons_layout c) by exact El. apply IH.
  - destruct (is_layout_char c) eqn:El.
    + rewrite !(ink_cons_layout c) by exact El. apply IH.
    + rewrite !(ink_cons_other c) by exact El. now rewrite IH.
Qed.

(** X2. The normalizer deletes nothing but hyphens, spaces, tabs and
    line breaks: all other characters come out as they went in, in
    the same order. *)
Theorem normalize_keeps_ink (t : str) : ink (normalize t) = ink t.
Proof.
  rewrite normalize_scan.
  now rewrite squeeze_sp_ink, squeeze_nl_ink, strip_trailing_ink, join_hyphen_ink.
Qed.

(** *** The shape of the result, on the text itself *)

Lemma no_blank_break_at pre post b : forall pb,
  is_sp_tab b = true ->
  no_blank_break pb (pre ++ b :: NL :: post) = false.
Proof.
  induction pre as [|c pre IH]; intros pb Hb.
  - simpl. now rewrite (blank_not_nl _ Hb), Hb.
  - simpl. destruct (is_nl c); [|now apply IH].
    rewrite (IH false Hb). apply andb_false_r.
Qed.

Lemma no_triple_break_at pre post : forall k,
  no_triple_break k (pre ++ NL :: NL :: NL :: post) = false.
Proof.
  induction pre as [|c pre IH]; intros k.
  - simpl. destruct k as [|[|k]]; reflexivity.
  - simpl. destruct (is_nl c); [|apply IH].
    rewrite IH. apply andb_false_r.
Qed.

Lemma no_double_space_at pre post : forall b,
  no_double_space b (pre ++ SP :: SP :: post) = false.
Proof.
  induction pre as [|c pre IH]; intros b.
  - simpl. destruct b; reflexivity.
  - simpl. destruct (is_sp c); [|apply IH].
    rewrite IH. apply andb_false_r.
Qed.

(** X3. In a normalized text no space or tab stands before a line
    break, no three line breaks stand in a row and no two spaces
    stand in a row. *)
Theorem normalize_shape (t pre post : str) :
  normalize t <> pre ++ [SP; NL] ++ post /\
  normalize t <> pre ++ [TAB; NL] ++ post /\
  normalize t <> pre ++ [NL; NL; NL] ++ post /\
  normalize t <> pre ++ [SP; SP] ++ post.
Proof.
  pose proof (normalize_settled t) as H. unfold settled in H.
  apply andb_true_iff in H as [H H4]. apply andb_true_iff in H as [H2 H3].
  repeat split; intros E; rewrite E in *; simpl app in *.
  - rewrite no_blank_break_at in H2 by reflexivity. discriminate.
  - rewrite no_blank_break_at in H2 by reflexivity. discriminate.
  - rewrite no_triple_break_at in H3. discriminate.
  - rewrite no_double_space_at in H4. discriminate.
Qed.

(** X4. On a text that holds no hyphen one pass of the normalizer is
    enough: a second pass changes nothing. *)
Theorem normalize_twice_without_hyphen (t : str) :
  ~ In HYPHEN t -> normalize (normalize t) = normalize t.
Proof.
  intros H. apply normalize_fixed.
  - apply normalize_settled.
  - apply no_hyphen_no_break. intros Hn. apply H.
    rewrite normalize_scan in Hn.
    apply squeeze_sp_in, squeeze_nl_in, strip_trailing_in, join_hyphen_in in Hn.
    exact Hn.
Qed.

Lemma normalize_twice_without_hyphen_witness :
  normalize (normalize (lit "a  b   " ++ [NL; NL; NL] ++ lit "c")) =
  normalize (lit "a  b   " ++ [NL; NL; NL] ++ lit "c").
Proof.
  apply normalize_twice_without_hyphen.
  vm_compute. intuition discriminate.
Defined.

End NormalizerMore.

(* ================================================================== *)
(** ** More about the corrector *)

Module CorrectorMore.
Import Corrector Reading NormalizerFacts CorrectorFacts.



Lemma forallb_rev {A} (p : A -> bool) (l : list A) :
  forallb p (rev l) = forallb p l.
Proof.
  induction l as [|x l IH]; [reflexivity|].
  simpl. rewrite forallb_app, IH. simpl. rewrite andb_true_r. apply andb_comm.
Qed.

(** *** Tokens *)

Lemma split_from_tokens s : forall cur,
  no_space cur = true ->
  Forall (fun tok => tok <> [] /\ no_space tok = true) (split_from cur s).
Proof.
  unfold no_space.
  induction s as [|c r IH]; intros cur Hcur; simpl.
  - destruct cur as [|x cur]; constructor; [|constructor].
    split; [|now rewrite forallb_rev].
    intros E. apply (f_equal (@length char)) in E.
    rewrite length_rev in E. discriminate.
  - destruct (isspace c) eqn:Ec.
    + destruct cur as [|x cur]; [now apply IH|].
      constructor; [|now apply IH].
      split; [|now rewrite forallb_rev].
      intros E. apply (f_equal (@length char)) in E.
      rewrite length_rev in E. discriminate.
    + apply IH. simpl. now rewrite Ec.
Qed.

Lemma split_tokens s :
  Forall (fun tok => tok <> [] /\ no_space tok = true) (split s).
Proof. now apply split_from_tokens. Qed.

Section Backends.

Variable Matches : Type.
Variable db : unicode_db.
Variable utils_correct : str -> Matches -> result str.

Local Abbreviation non_alnum := (non_alnum db).
Local Abbreviation leading_run := (leading_run db).
Local Abbreviation trailing_run := (trailing_run db).
Local Abbreviation core_of := (core_of db).
Local Abbreviation correct_token := (correct_token db).
Local Abbreviation correct_tokens := (correct_tokens db).
Local Abbreviation dictionary_correct := (dictionary_correct db).
Local Abbreviation correct_spanish_text :=
  (correct_spanish_text Matches db utils_correct).

(** the token loop, one token at a time *)
Lemma correct_token_cases sp tok :
  correct_token sp tok =
  if existsb (isalpha db) tok then
    match correction sp (core_of tok) with
    | Raise e => Raise e
    | Ok (Some (c :: s)) => Ok (leading_run tok ++ (c :: s) ++ trailing_run tok)
    | Ok _ => Ok tok
    end
  else Ok tok.
Proof.
  unfold Corrector.correct_token.
  destruct (existsb (isalpha db) tok) eqn:Ha; [|reflexivity].
  destruct (token_parts db tok Ha) as (_ & Hcore & Hp & Hs).
  rewrite Hp, Hs.
  destruct (core_of tok) as [|c0 core] eqn:Ec; [now elim Hcore|].
  destruct (correction sp (c0 :: core)) as [[[|c s]|]|e]; reflexivity.
Qed.





(** *** What the word-by-word pass does to whitespace *)

Lemma no_space_takeWhile (p : char -> bool) l :
  no_space l = true -> no_space (takeWhile p l) = true.
Proof.
  unfold no_space. induction l as [|c r IH]; [reflexivity|].
  simpl. intros H. apply andb_true_iff in H as [Hc Hr].
  destruct (p c); [|reflexivity]. simpl. now rewrite Hc, IH.
Qed.

Lemma no_space_dropWhile (p : char -> bool) l :
  no_space l = true -> no_space (dropWhile p l) = true.
Proof.
  unfold no_space. induction l as [|c r IH]; [reflexivity|].
  simpl. intros H. destruct (p c); [|exact H].
  apply andb_true_iff in H as [_ Hr]. now apply IH.
Qed.

Lemma no_space_rev l : no_space (rev l) = no_space l.
Proof. apply forallb_rev. Qed.

Lemma no_space_core tok : no_space tok = true -> no_space (core_of tok) = true.
Proof.
  intros H. unfold Corrector.core_of.
  rewrite no_space_rev. apply no_space_dropWhile.
  rewrite no_space_rev. now apply no_space_dropWhile.
Qed.

Lemma no_space_app a b :
  no_space (a ++ b) = no_space a && no_space b.
Proof. apply forallb_app. Qed.

Lemma no_space_app3 a b c :
  no_space a = true -> no_space b = true -> no_space c = true ->
  no_space (a ++ b ++ c) = true.
Proof. intros Ha Hb Hc. now rewrite !no_space_app, Ha, Hb, Hc. Qed.

Lemma correct_token_good sp tok out :
  (forall w s, no_space w = true ->
     correction sp w = Ok (Some s) -> no_space s = true) ->
  tok <> [] -> no_space tok = true ->
  correct_token sp tok = Ok out ->
  out <> [] /\ no_space out = true.
Proof.
  intros Hsug Hne Hns. rewrite correct_token_cases.
  destruct (existsb (isalpha db) tok); [|intros [= <-]; now split].
  destruct (correction sp (core_of tok)) as [[[|c s]|]|e] eqn:Ec;
    try (intros [= <-]; now split).
  intros [= <-]. split.
  - intros E. apply (f_equal (@length char)) in E.
    rewrite !length_app in E. simpl in E. lia.
  - apply (no_space_app3 (leading_run tok) (c :: s) (trailing_run tok)).
    + now apply no_space_takeWhile.
    + exact (Hsug _ _ (no_space_core tok Hns) Ec).
    + unfold Corrector.trailing_run.
      rewrite no_space_rev. apply no_space_takeWhile. now rewrite no_space_rev.
Qed.

Lemma correct_tokens_good sp toks : forall tokens out,
  (forall w s, no_space w = true ->
     correction sp w = Ok (Some s) -> no_space s = true) ->
  Forall (fun tok => tok <> [] /\ no_space tok = true) toks ->
  Forall (fun tok => tok <> [] /\ no_space tok = true) tokens ->
  correct_tokens sp tokens toks = Ok out ->
  Forall (fun tok => tok <> [] /\ no_space tok = true) out /\
  length out = length tokens + length toks.
Proof.
  induction toks as [|tok rest IH]; intros tokens out Hsug Htoks Hacc.
  - simpl. intros [= <-]. split; [exact Hacc|]. now rewrite Nat.add_0_r.
  - simpl. fold (correct_token sp tok).
    inversion Htoks as [|? ? [Hne Hns] Hrest]; subst.
    destruct (correct_token sp tok) as [tok'|e] eqn:Et; [|discriminate].
    intros Hrun.
    destruct (correct_token_good sp tok tok' Hsug Hne Hns Et) as [Hne' Hns'].
    destruct (IH (tokens ++ [tok']) out Hsug Hrest) as [Hout Hlen];
      [|exact Hrun|].
    + apply Forall_app. split; [exact Hacc|]. constructor; [now split|constructor].
    + split; [exact Hout|]. rewrite Hlen, length_app. unfold str. simpl. lia.
Qed.

Lemma join_in sep parts c :
  In c (join sep parts) -> In c sep \/ exists p, In p parts /\ In c p.
Proof.
  induction parts as [|p rest IH]; [intros []|].
  destruct rest as [|q rest].
  - simpl. intros H. right. exists p. split; [now left|exact H].
  - change (join sep (p :: q :: rest)) with (p ++ sep ++ join sep (q :: rest)).
    intros H. apply in_app_or in H as [H|H].
    + right. exists p. split; [now left|exact H].
    + apply in_app_or in H as [H|H]; [now left|].
      destruct (IH H) as [Hs|(p' & Hp' & Hc)]; [now left|].
      right. exists p'. split; [now right|exact Hc].
Qed.

(** X6. When no suggestion of the dictionary holds whitespace, the
    word-by-word pass returns as many tokens as the text had, none
    empty and none holding whitespace, joined by single spaces; so
    the only whitespace left is the space, and every line break of
    the text is gone. *)
Theorem dictionary_flattens_whitespace (sp : SpellChecker) (text out : str) :
  (forall w s, no_space w = true ->
     correction sp w = Ok (Some s) -> no_space s = true) ->
  dictionary_correct sp text = Ok out ->
  (exists toks,
     out = join [SP] toks /\
     length toks = length (split text) /\
     Forall (fun tok => tok <> [] /\ no_space tok = true) toks) /\
  (forall c, In c out -> isspace c = true -> c = SP) /\
  ~ In NL out.
Proof.
  intros Hsug. unfold Corrector.dictionary_correct.
  destruct (correct_tokens sp [] (split text)) as [toks|e] eqn:Er;
    [|discriminate].
  intros [= <-].
  destruct (correct_tokens_good sp (split text) [] toks Hsug
              (split_tokens text) (Forall_nil _) Er) as [Hgood Hlen].
  assert (Hws : forall c, In c (join [SP] toks) -> isspace c = true -> c = SP).
  { intros c Hc Hsp. apply join_in in Hc as [[<-|[]]|(p & Hp & Hc)];
      [reflexivity|].
    rewrite Forall_forall in Hgood. destruct (Hgood p Hp) as [_ Hns].
    unfold no_space in Hns. rewrite forallb_forall in Hns.
    specialize (Hns c Hc). rewrite Hsp in Hns. discriminate. }
  split; [|split].
  - exists toks. split; [reflexivity|]. split; [exact Hlen|exact Hgood].
  - exact Hws.
  - intros Hnl. specialize (Hws NL Hnl eq_refl). discriminate.
Qed.

Lemma correct_tokens_unchanged sp toks : forall tokens,
  (forall tok, In tok toks -> correct_token sp tok = Ok tok) ->
  correct_tokens sp tokens toks = Ok (tokens ++ toks).
Proof.
  induction toks as [|tok rest IH]; intros tokens H.
  - simpl. now rewrite app_nil_r.
  - simpl. fold (correct_token sp tok). rewrite (H tok (or_introl eq_refl)).
    rewrite IH, <- app_assoc; [reflexivity|].
    intros t Ht. apply H. now right.
Qed.

(** X7. With the dictionary backend alone and a dictionary that
    changes no word (it answers the word itself, or nothing), a text
    that is not blank comes back normalized and with every run of
    whitespace, line breaks included, turned into one space and none
    left at either end. *)
Theorem faithful_dictionary_rejoins (g : globals Matches) (sp : SpellChecker)
    (text : str) :
  lt_tool g = None ->
  spell g = Some sp ->
  (forall w, correction sp w = Ok None \/ correction sp w = Ok (Some w)) ->
  is_blank text = false ->
  correct_spanish_text g text =
  Ok (join [SP] (split (Normalizer.normalize text))).
Proof.
  intros Hlt Hsp Hsame Hb.
  unfold Corrector.correct_spanish_text, Corrector.try_language_tool.
  rewrite Hb, Hlt, Hsp. unfold Corrector.dictionary_correct.
  rewrite correct_tokens_unchanged; [reflexivity|].
  intros tok _. rewrite correct_token_cases.
  destruct (existsb (isalpha db) tok) eqn:Ha; [|reflexivity].
  destruct (Hsame (core_of tok)) as [-> | ->]; [reflexivity|].
  destruct (token_parts db tok Ha) as (Htok & Hcore & _).
  destruct (core_of tok) as [|c s] eqn:Ec; [now elim Hcore|].
  now rewrite <- Htok.
Qed.

(** *** Start-up *)

(** X8. When neither backend can be constructed, [setup_spell_tools]
    still returns, and from then on [correct_spanish_text] is the
    normalizer alone (a blank text comes back untouched). *)
Theorem no_backend_means_normalize_only (a b : nat) (text : str) :
  exists g,
    setup_spell_tools Matches (Raise (Exception a)) (Raise (Exception b))
      (initial_globals Matches) = Ok g /\
    correct_spanish_text g text =
    Ok (if is_blank text then text else Normalizer.normalize text).
Proof.
  eexists. split; [reflexivity|].
  unfold Corrector.correct_spanish_text. destruct (is_blank text); reflexivity.
Qed.

(** X9. The first [setup_spell_tools] of a process leaves one backend
    at most: the grammar tool alone when it can be constructed (the
    dictionary is then not even tried), else the dictionary alone
    when that can be constructed. *)
Theorem first_setup_picks_one_backend
    (new_lt : result (LanguageTool Matches)) (new_spell : result SpellChecker)
    (g : globals Matches) :
  setup_spell_tools Matches new_lt new_spell (initial_globals Matches) = Ok g ->
  (lt_tool g = None \/ spell g = None) /\
  (forall t, new_lt = Ok t -> lt_tool g = Some t /\ spell g = None) /\
  (forall a s, new_lt = Raise (Exception a) -> new_spell = Ok s ->
     lt_tool g = None /\ spell g = Some s).
Proof.
  unfold setup_spell_tools. destruct new_lt as [t|[ta|ta]].
  - intros [= <-]. simpl. split; [now right|]. split.
    + intros t' [= <-]. now split.
    + discriminate.
  - destruct new_spell as [s|[tb|tb]]; try discriminate; intros [= <-]; simpl.
    + split; [now left|]. split; [discriminate|].
      intros a s' _ [= <-]. now split.
    + split; [now left|]. split; discriminate.
  - discriminate.
Qed.

(** X10. [setup_spell_tools] never raises an [Exception], whatever the
    constructors of the backends do, and it never takes away a
    backend that was there before. *)
Theorem setup_is_forgiving (new_lt : result (LanguageTool Matches))
    (new_spell : result SpellChecker) (g : globals Matches) :
  (forall tag, setup_spell_tools Matches new_lt new_spell g
               <> Raise (Exception tag)) /\
  (forall g', setup_spell_tools Matches new_lt new_spell g = Ok g' ->
     (lt_tool g <> None -> lt_tool g' <> None) /\
     (spell g <> None -> spell g' <> None)).
Proof.
  unfold setup_spell_tools. split.
  - intros tag. destruct new_lt as [t|[ta|ta]]; try discriminate.
    destruct new_spell as [s|[tb|tb]]; discriminate.
  - intros g'. destruct new_lt as [t|[ta|ta]].
    + intros [= <-]. simpl. split; [discriminate|auto].
    + destruct new_spell as [s|[tb|tb]]; try discriminate;
        intros [= <-]; simpl; split; auto; discriminate.
    + discriminate.
Qed.

End Backends.

Import Examples MoreExamples.

Lemma dictionary_flattens_whitespace_witness :
  let text := lit "hila" ++ [NL; NL] ++ lit " mundo" ++ [TAB] in
  let out := lit "hola mundo" in
  (exists toks,
     out = join [SP] toks /\
     length toks = length (split text) /\
     Forall (fun tok => tok <> [] /\ no_space tok = true) toks) /\
  (forall c, In c out -> isspace c = true -> c = SP) /\
  ~ In NL out.
Proof.
  intros text out.
  apply (dictionary_flattens_whitespace latin1_db tiny_checker text out).
  - intros w s Hw. unfold tiny_checker, correction.
    destruct (str_eqb w (lit "hila")); intros [= <-]; [reflexivity|exact Hw].
  - reflexivity.
Defined.

Lemma faithful_dictionary_rejoins_witness :
  correct_spanish_text unit latin1_db keep_text (dictionary_only knows_all)
    (lit " hola,  " ++ [NL; NL; NL] ++ lit "mundo ") = Ok (lit "hola, mundo").
Proof.
  apply (faithful_dictionary_rejoins unit latin1_db keep_text
           (dictionary_only knows_all) knows_all
           (lit " hola,  " ++ [NL; NL; NL] ++ lit "mundo ")
           eq_refl eq_refl (fun w => or_intror eq_refl) eq_refl).
Defined.

Lemma first_setup_picks_one_backend_witness :
  let g := {| USE_LT := false; lt_tool := None; spell := Some tiny_checker |} in
  (lt_tool (Matches := unit) g = None \/ spell g = None) /\
  (forall t, Raise (Exception 5) = Ok t -> lt_tool g = Some t /\ spell g = None) /\
  (forall a s, Raise (Exception 5) = Raise (A := LanguageTool unit) (Exception a) ->
     Ok tiny_checker = Ok s -> lt_tool g = None /\ spell g = Some s).
Proof.
  intros g.
  exact (first_setup_picks_one_backend unit (Raise (Exception 5))
           (Ok tiny_checker) g eq_refl).
Defined.

End CorrectorMore.

(* ================================================================== *)
(** ** More about the layout engine *)

Module LayoutMore.
Import Layout LayoutReading LayoutFacts.

Local Open Scope Q_scope.

Lemma drawn_app a b : drawn (a ++ b) = (drawn a ++ drawn b)%list.
Proof. unfold drawn. apply flat_map_app. Qed.

Section Page.

Variable simpleSplit : str -> str -> Q -> Q -> list str.
Variable font_name : str.
Variable font_size : Q.
Variable margins : Q * Q * Q * Q.

Local Abbreviation advance := (advance font_name font_size margins).
Local Abbreviation draw_lines := (draw_lines font_name font_size margins).
Local Abbreviation layout_lines :=
  (layout_lines simpleSplit font_name font_size margins).
Local Abbreviation write_wrapped_page :=
  (write_wrapped_page simpleSplit font_name font_size margins).
Local Abbreviation segments_of_lines :=
  (segments_of_lines simpleSplit font_name font_size margins).
Local Abbreviation segments := (segments simpleSplit font_name font_size margins).
Local Abbreviation page_turns := (page_turns font_name font_size).

(** *** What is drawn *)

Lemma advance_draws_nothing y : drawn (fst (advance y)) = [].
Proof. unfold Layout.advance. destruct (Qltb _ _); reflexivity. Qed.

Lemma draw_lines_drawn ws : forall y, drawn (fst (draw_lines ws y)) = ws.
Proof.
  induction ws as [|w rest IH]; intros y; [reflexivity|].
  cbn [Layout.draw_lines].
  pose proof (advance_draws_nothing y) as H1.
  destruct (advance y) as [ev1 y1]. specialize (IH y1).
  destruct (draw_lines rest y1) as [ev2 y2]. cbn [fst] in *.
  change (DrawString (left margins) y w :: ev1 ++ ev2)%list
    with ([DrawString (left margins) y w] ++ ev1 ++ ev2)%list.
  rewrite !drawn_app, H1, IH. reflexivity.
Qed.

Lemma layout_lines_drawn raw_lines : forall y,
  drawn (layout_lines raw_lines y) = segments_of_lines raw_lines.
Proof.
  induction raw_lines as [|raw rest IH]; intros y; [reflexivity|].
  cbn [Layout.layout_lines LayoutReading.segments_of_lines].
  destruct (strip (rstrip raw)) as [|c0 l0].
  - pose proof (advance_draws_nothing y) as H1.
    destruct (advance y) as [ev y']. cbn [fst] in H1.
    now rewrite drawn_app, H1, IH.
  - pose proof (draw_lines_drawn
      (simpleSplit (rstrip raw) font_name font_size (usable_w margins)) y) as H1.
    destruct (draw_lines _ y) as [ev y']. cbn [fst] in H1.
    now rewrite drawn_app, H1, IH.
Qed.

(** X11. The layout engine draws exactly the segments into which
    [simpleSplit] cuts the lines that are not blank, each once and in
    reading order, whatever the page breaks; of a blank text it draws
    nothing. *)
Theorem layout_draws_the_segments (text : str) :
  drawn (write_wrapped_page text) = segments text.
Proof.
  unfold Layout.write_wrapped_page, LayoutReading.segments.
  change (SetFont font_name font_size :: ?l)%list
    with ([SetFont font_name font_size] ++ l)%list.
  rewrite drawn_app. destruct (is_blank text); [reflexivity|].
  rewrite drawn_app, layout_lines_drawn. simpl. apply app_nil_r.
Qed.

(** *** Page turns *)

Lemma page_turns_app a b : page_turns a -> page_turns b -> page_turns (a ++ b).
Proof.
  induction 1; intros Hb; simpl; [exact Hb| |]; constructor; auto.
Qed.

Lemma advance_turns y : page_turns (fst (advance y)).
Proof.
  unfold Layout.advance. destruct (Qltb _ _); cbn [fst]; repeat constructor.
Qed.

Lemma draw_lines_turns ws : forall y, page_turns (fst (draw_lines ws y)).
Proof.
  induction ws as [|w rest IH]; intros y; [constructor|].
  cbn [Layout.draw_lines].
  pose proof (advance_turns y) as H1.
  destruct (advance y) as [ev1 y1]. specialize (IH y1).
  destruct (draw_lines rest y1) as [ev2 y2]. cbn [fst] in *.
  constructor. now apply page_turns_app.
Qed.

Lemma layout_lines_turns raw_lines : forall y,
  page_turns (layout_lines raw_lines y).
Proof.
  induction raw_lines as [|raw rest IH]; intros y; [constructor|].
  cbn [Layout.layout_lines].
  destruct (strip (rstrip raw)) as [|c0 l0].
  - pose proof (advance_turns y) as H1.
    destruct (advance y) as [ev y']. cbn [fst] in H1.
    now apply page_turns_app.
  - pose proof (draw_lines_turns
      (simpleSplit (rstrip raw) font_name font_size (usable_w margins)) y) as H1.
    destruct (draw_lines _ y) as [ev y']. cbn [fst] in H1.
    now apply page_turns_app.
Qed.

Lemma page_turns_after_seal body : page_turns body ->
  forall pre post, body = (pre ++ ShowPage :: post)%list ->
  exists post', post = SetFont font_name font_size :: post'.
Proof.
  induction 1 as [|x y s log H IH|log H IH]; intros pre post E.
  - destruct pre; discriminate.
  - destruct pre as [|e pre]; [discriminate|].
    injection E as _ E. eapply IH, E.
  - destruct pre as [|e pre].
    + injection E as <-. now eexists.
    + injection E as _ E. destruct pre as [|e' pre]; [discriminate|].
      injection E as _ E. eapply IH, E.
Qed.

(** X12. A call sets the font first and seals a page last; whenever
    it seals a page before that, the very next call sets the same
    font and size again, so no line is drawn on a fresh page before
    the font is set. *)
Theorem font_set_on_every_page (text : str) :
  exists body,
    write_wrapped_page text
      = (SetFont font_name font_size :: body ++ [ShowPage])%list /\
    forall pre post, body = (pre ++ ShowPage :: post)%list ->
      exists post', post = SetFont font_name font_size :: post'.
Proof.
  unfold Layout.write_wrapped_page. destruct (is_blank text).
  - exists []. split; [reflexivity|].
    intros pre post E. destruct pre; discriminate.
  - eexists. split; [reflexivity|].
    apply page_turns_after_seal, layout_lines_turns.
Qed.

End Page.

(** *** The style of [process] *)

Lemma default_page_period font :
  cursor_after font 11 default_margins lines_per_page
    (page_h - top default_margins) = page_h - top default_margins /\
  breaks font 11 default_margins lines_per_page
    (page_h - top default_margins) = 1%nat /\
  breaks font 11 default_margins (pred lines_per_page)
    (page_h - top default_margins) = 0%nat.
Proof. vm_compute. repeat split. Qed.

Lemma default_breaks font q : forall r,
  (r < lines_per_page)%nat ->
  breaks font 11 default_margins (lines_per_page * q + r)
    (page_h - top default_margins) = q.
Proof.
  destruct (default_page_period font) as (Hc & H1 & H0).
  induction q as [|q IH]; intros r Hr.
  - rewrite Nat.mul_0_r. cbn [Nat.add].
    pose proof (breaks_mono font 11 default_margins r (pred lines_per_page)
                  (page_h - top default_margins)) as Hm.
    rewrite H0 in Hm. unfold lines_per_page in *. simpl pred in Hm. lia.
  - replace (lines_per_page * S q + r)%nat
      with (lines_per_page + (lines_per_page * q + r))%nat by lia.
    rewrite breaks_add, Hc, H1, IH by exact Hr. reflexivity.
Qed.

(** X13. In the style of [process] (font size 11, margins of 50
    points, A4) a page takes 54 lines: a text whose layout makes [n]
    cursor moves (blank lines plus drawn segments) comes out on
    [1 + n / 54] pages. *)
Theorem default_style_page_count simpleSplit font (text : str) :
  pages (write_wrapped_page simpleSplit font 11 default_margins text) =
  S (moves simpleSplit font 11 default_margins text / lines_per_page).
Proof.
  rewrite write_wrapped_page_pages. f_equal.
  set (n := moves simpleSplit font 11 default_margins text).
  rewrite (Nat.div_mod_eq n lines_per_page) at 1.
  apply default_breaks. apply Nat.mod_upper_bound. discriminate.
Qed.

End LayoutMore.

(* ================================================================== *)
(** ** More about the page loop *)

Module PipelineMore.
Import Pipeline PipelineReading PipelineFacts.

Local Open Scope Q_scope.

(** *** Recognition after rendering *)

Lemma ocr_after_render_more log : forall seen seen',
  incl seen seen' -> ocr_after_render seen log -> ocr_after_render seen' log.
Proof.
  induction log as [|e log IH]; intros seen seen' Hi H; [exact I|].
  destruct e; simpl in *; try (eapply IH; eassumption).
  - eapply IH; [|exact H]. intros x [<-|Hx]; [now left|right; now apply Hi].
  - destruct H as [Hp H]. split; [now apply Hi|]. eapply IH; eassumption.
Qed.

Lemma ocr_after_render_app a : forall b seen,
  ocr_after_render seen a -> ocr_after_render [] b ->
  ocr_after_render seen (a ++ b).
Proof.
  induction a as [|e a IH]; intros b seen Ha Hb.
  - simpl. eapply ocr_after_render_more; [|exact Hb]. intros x [].
  - destruct e; simpl in *; try (now apply IH).
    destruct Ha as [Hp Ha]. split; [exact Hp|now apply IH].
Qed.

Lemma ocr_after_render_drawing log seen :
  forallb is_drawing log = true -> ocr_after_render seen log.
Proof.
  revert seen. induction log as [|e log IH]; intros seen H; [exact I|].
  cbn [forallb] in H. apply andb_true_iff in H as [He Hl].
  destruct e; try discriminate; simpl; now apply IH.
Qed.

Lemma ocr_after_render_at log : forall seen pre pix lang post,
  ocr_after_render seen log ->
  log = pre ++ ImageToString pix lang :: post ->
  In pix seen \/ In (GetPixmap pix) pre.
Proof.
  induction log as [|e log IH]; intros seen pre pix lang post H E.
  - destruct pre; discriminate.
  - destruct pre as [|e' pre].
    + injection E as -> _. simpl in H. left. apply H.
    + injection E as <- E.
      destruct e; simpl in H;
        try (destruct (IH _ _ _ _ _ H E) as [Hs|Hp]; [now left|right; now right]).
      * destruct (IH _ _ _ _ _ H E) as [[<-|Hs]|Hp];
          [right; now left|now left|right; now right].
      * destruct H as [_ H].
        destruct (IH _ _ _ _ _ H E) as [Hs|Hp]; [now left|right; now right].
Qed.

Section Run.

Variable Matches : Type.
Variable db : unicode_db.
Variable utils_correct : str -> Matches -> result str.
Variable simpleSplit : str -> str -> Q -> Q -> list str.
Variable image_to_string : Pixmap -> str -> result str.
Variable g : Corrector.globals Matches.

Local Abbreviation process_page :=
  (process_page Matches db utils_correct simpleSplit image_to_string g).
Local Abbreviation process :=
  (process Matches db utils_correct simpleSplit image_to_string g).
Local Abbreviation half_text :=
  (half_text Matches db utils_correct image_to_string g).
Local Abbreviation layout := (layout simpleSplit).
Local Abbreviation page_layout :=
  (page_layout Matches db utils_correct simpleSplit image_to_string g).
Local Abbreviation page_calls :=
  (page_calls Matches db utils_correct simpleSplit image_to_string g).
Local Abbreviation page_completes :=
  (page_completes Matches db utils_correct image_to_string g).

Lemma drawing_calls self doc i log :
  forallb is_drawing log = true -> Forall (call_of_page self doc i) log.
Proof.
  intros H. apply Forall_forall. intros e He.
  rewrite forallb_forall in H. specialize (H e He).
  destruct e; try discriminate; exact I.
Qed.

(** Whatever its steps do, a turn of the page loop appends calls of
    its own page only, each recognition after its rendering. *)
Lemma process_page_tail self doc i log :
  exists tail r,
    process_page self doc i log = (log ++ tail, r) /\
    turn_ok self doc i tail.
Proof.
  destruct (nth_error doc i) as [page|] eqn:Hn.
  - rewrite (process_page_run _ _ _ _ _ _ self doc i page log Hn). cbv zeta.
    assert (HL : half_of self doc i (left_pix self i page))
      by (exists page; split; [exact Hn|now left]).
    assert (HR : half_of self doc i (right_pix self i page))
      by (exists page; split; [exact Hn|now right]).
    assert (Hhead : turn_ok self doc i
              [GetPixmap (left_pix self i page); GetPixmap (right_pix self i page);
               ImageToString (left_pix self i page) spa]).
    { split; [repeat constructor; assumption|]. simpl. intuition. }
    assert (Hfull : turn_ok self doc i
              [GetPixmap (left_pix self i page); GetPixmap (right_pix self i page);
               ImageToString (left_pix self i page) spa;
               ImageToString (right_pix self i page) spa]).
    { split; [repeat constructor; assumption|]. simpl. intuition. }
    destruct (image_to_string (left_pix self i page) spa) as [lraw|e];
      [|do 2 eexists; split; [reflexivity|exact Hhead]].
    destruct (Corrector.correct_spanish_text _ _ _ _ lraw) as [lt|e];
      [|do 2 eexists; split; [reflexivity|exact Hhead]].
    destruct (image_to_string (right_pix self i page) spa) as [rraw|e];
      [|do 2 eexists; split; [reflexivity|exact Hfull]].
    destruct (Corrector.correct_spanish_text _ _ _ _ rraw) as [rt|e];
      [|do 2 eexists; split; [reflexivity|exact Hfull]].
    do 2 eexists. split; [reflexivity|].
    assert (Hd : forallb is_drawing (layout self lt ++ layout self rt) = true)
      by now rewrite forallb_app, !layout_drawing.
    split.
    + apply Forall_app. split; [exact (proj1 Hhead)|].
      apply Forall_app. split; [repeat constructor; assumption|].
      now apply drawing_calls.
    + cbn [app ocr_after_render].
      split; [right; now left|]. split; [now left|].
      now apply ocr_after_render_drawing.
  - exists [], (Raise IndexError). split.
    + unfold Pipeline.process_page, bind, lift. rewrite Hn.
      now rewrite app_nil_r.
    + split; [constructor|exact I].
Qed.

Lemma call_of_page_in_range self doc i e :
  (start_page self <= i < length doc)%nat ->
  call_of_page self doc i e -> call_in_range self doc e.
Proof.
  intros Hi H. destruct e; simpl in *; try exact I; try exact H;
    exists i; split; assumption.
Qed.

Lemma loop_ok_app self doc a b :
  loop_ok self doc a -> loop_ok self doc b -> loop_ok self doc (a ++ b).
Proof.
  intros [Ha1 Ha2] [Hb1 Hb2]. split.
  - apply Forall_app. now split.
  - now apply ocr_after_render_app.
Qed.

Lemma for_each_tail self doc xs :
  (forall x, In x xs -> (start_page self <= x < length doc)%nat) ->
  forall log, exists tail r,
    for_each xs (process_page self doc) log = (log ++ tail, r) /\
    loop_ok self doc tail.
Proof.
  induction xs as [|x rest IH]; intros Hx log.
  - exists [], (Ok tt). split; [cbn; now rewrite app_nil_r|].
    split; [constructor|exact I].
  - cbn [for_each]. unfold bind.
    destruct (process_page_tail self doc x log) as (t1 & r1 & -> & [Hc Ho]).
    assert (H1 : loop_ok self doc t1).
    { split; [|exact Ho]. eapply Forall_impl; [|exact Hc].
      intros e. apply call_of_page_in_range, Hx. now left. }
    destruct r1 as [[]|e].
    + destruct (IH (fun y Hy => Hx y (or_intror Hy)) (log ++ t1))
        as (t2 & r2 & -> & H2).
      exists (t1 ++ t2), r2. split; [now rewrite app_assoc|].
      now apply loop_ok_app.
    + exists t1, (Raise e). now split.
Qed.

Lemma range_bounds a b x : In x (range a b) -> (a <= x < b)%nat.
Proof. unfold range. intros H. apply in_seq in H. lia. Qed.

(** A run is the calls of the page loop, followed by [save] exactly
    when the loop came to its end. *)
Lemma process_shape self doc :
  exists tail,
    loop_ok self doc tail /\
    (process self doc = (tail ++ [Save], Ok tt) \/
     exists e, process self doc = (tail, Raise e)).
Proof.
  unfold Pipeline.process, bind.
  destruct (for_each_tail self doc (range (start_page self) (length doc))
              (range_bounds _ _) [])
    as (tail & r & -> & Hok).
  exists tail. split; [exact Hok|].
  destruct r as [[]|e]; [left; reflexivity|right; now exists e].
Qed.

Lemma loop_ok_no_save self doc tail : loop_ok self doc tail -> ~ In Save tail.
Proof.
  intros [H _] Hin. rewrite Forall_forall in H. exact (H Save Hin).
Qed.

Lemma rendered_halves self doc pix :
  In (GetPixmap pix) (fst (process self doc)) ->
  exists i, (start_page self <= i < length doc)%nat /\ half_of self doc i pix.
Proof.
  intros Hin.
  destruct (process_shape self doc) as (tail & [Hc _] & [Hr|[e Hr]]);
    rewrite Hr in Hin; cbn [fst] in Hin; rewrite Forall_forall in Hc.
  - apply in_app_or in Hin as [Hin|[Hin|[]]]; [|discriminate].
    exact (Hc _ Hin).
  - exact (Hc _ Hin).
Qed.

(** X14. Whatever the engines do, a run renders nothing but the left
    and right halves of the input pages from the starting index on
    (each at the scale of the run and without alpha); with the first
    page skipped, input page 0 is never rendered. *)
Theorem renders_only_visited_halves self doc pix :
  In (GetPixmap pix) (fst (process self doc)) ->
  (exists i,
     (start_page self <= i < length doc)%nat /\ half_of self doc i pix) /\
  (omit_first self = true -> pix_page pix <> 0%nat).
Proof.
  intros Hin. pose proof (rendered_halves self doc pix Hin) as H.
  split; [exact H|].
  intros Ho. destruct H as (i & Hi & page & _ & [-> | ->]);
    unfold start_page in Hi; rewrite Ho in Hi; simpl; lia.
Qed.

(** X15. Every recognition of a run is asked in Spanish, on a bitmap
    that the run has rendered before. *)
Theorem recognition_in_spanish_after_render self doc pre pix lang post :
  fst (process self doc) = pre ++ ImageToString pix lang :: post ->
  lang = spa /\ In (GetPixmap pix) pre.
Proof.
  intros E.
  assert (Hlog : loop_ok self doc (fst (process self doc)) \/
                 exists tail, loop_ok self doc tail /\
                   fst (process self doc) = tail ++ [Save]).
  { destruct (process_shape self doc) as (tail & Hok & [Hr|[e Hr]]);
      rewrite Hr; cbn [fst]; [right; now exists tail|now left]. }
  assert (Hall : Forall (fun e => e = Save \/ call_in_range self doc e)
                   (fst (process self doc)) /\
                 ocr_after_render [] (fst (process self doc))).
  { destruct Hlog as [[Hc Ho]|(tail & [Hc Ho] & ->)].
    - split; [|exact Ho]. eapply Forall_impl; [|exact Hc]. now right.
    - split.
      + apply Forall_app. split.
        * eapply Forall_impl; [|exact Hc]. now right.
        * constructor; [now left|constructor].
      + apply ocr_after_render_app; [exact Ho|exact I]. }
  destruct Hall as [Hc Ho]. split.
  - rewrite E in Hc. apply Forall_app in Hc as [_ Hc].
    inversion Hc as [|? ? [Hs|Hcall] _]; subst; [discriminate|].
    destruct Hcall as (i & _ & Hlang & _). exact Hlang.
  - destruct (ocr_after_render_at _ _ _ _ _ _ Ho E) as [[]|Hp]. exact Hp.
Qed.

(** X16. [save] is called exactly when the run ends without an
    exception, and then once, as the last call. *)
Theorem save_iff_run_completes self doc :
  (snd (process self doc) = Ok tt <-> In Save (fst (process self doc))) /\
  (In Save (fst (process self doc)) ->
   exists body, fst (process self doc) = body ++ [Save] /\ ~ In Save body).
Proof.
  destruct (process_shape self doc) as (tail & Hok & [Hr|[e Hr]]);
    rewrite Hr; cbn [fst snd]; pose proof (loop_ok_no_save _ _ _ Hok) as Hns.
  - split.
    + split; [intros _; apply in_or_app; right; now left|reflexivity].
    + intros _. exists tail. now split.
  - split.
    + split; [discriminate|intros H; now elim Hns].
    + intros H. now elim Hns.
Qed.

Lemma process_completes self doc :
  (forall j, (start_page self <= j < length doc)%nat ->
             page_completes self doc j) ->
  process self doc =
    (flat_map (page_calls self doc) (range (start_page self) (length doc))
     ++ [Save], Ok tt).
Proof.
  intros Hall. unfold Pipeline.process, bind.
  rewrite (for_each_done _ _ (page_calls self doc)); [reflexivity|].
  intros j log Hj. apply process_page_completes, Hall, range_bounds, Hj.
Qed.

(** X17. When both halves of every input page from the starting index
    on yield a text, the run ends without an exception; its calls are
    those of these pages in input order, then [save]; each of these
    pages is rendered twice, and the output has at least two pages for
    each of them. *)
Theorem run_of_good_pages self doc :
  (forall j, (start_page self <= j < length doc)%nat ->
             page_completes self doc j) ->
  process self doc =
    (flat_map (page_calls self doc) (range (start_page self) (length doc))
     ++ [Save], Ok tt) /\
  rendered (fst (process self doc)) =
    flat_map (fun j => [j; j]) (range (start_page self) (length doc)) /\
  (2 * (length doc - start_page self) <= pages (fst (process self doc)))%nat.
Proof.
  intros Hall. pose proof (process_completes self doc Hall) as Hrun.
  split; [exact Hrun|]. rewrite Hrun. cbn [fst].
  assert (Hin : forall j, In j (range (start_page self) (length doc)) ->
                          page_completes self doc j)
    by (intros j Hj; apply Hall, range_bounds, Hj).
  assert (Hlen : length (range (start_page self) (length doc))
                 = (length doc - start_page self)%nat)
    by apply length_seq.
  rewrite <- Hlen. clear Hrun Hlen.
  induction (range (start_page self) (length doc)) as [|j js IH].
  - split; [reflexivity|cbn; lia].
  - destruct (Hin j (or_introl eq_refl)) as (page & lt & rt & Hn & Hl & Hr).
    destruct (IH (fun k Hk => Hin k (or_intror Hk))) as [IHr IHp].
    cbn [flat_map]. rewrite <- app_assoc.
    rewrite (page_calls_shape _ _ _ _ _ _ self doc j page lt rt Hn Hl Hr).
    set (rest := flat_map (page_calls self doc) js ++ [Save]) in *.
    split.
    + rewrite !rendered_app, IHr,
        !(drawing_not_rendered _ (layout_drawing _ self _)).
      reflexivity.
    + rewrite !LayoutFacts.pages_app.
      pose proof (layout_pages simpleSplit self lt).
      pose proof (layout_pages simpleSplit self rt).
      cbn [length]. change (pages [GetPixmap _; GetPixmap _;
        ImageToString _ _; ImageToString _ _]) with 0%nat. lia.
Qed.

(** X18. A document with no page from the starting index on (no page
    at all, or one page that is skipped) gives a run that only calls
    [save]: nothing is rendered and no output page is sealed. *)
Theorem short_document_only_saves self doc :
  (length doc <= start_page self)%nat ->
  process self doc = ([Save], Ok tt).
Proof.
  intros H. unfold Pipeline.process, range.
  replace (length doc - start_page self)%nat with 0%nat by lia.
  reflexivity.
Qed.

(** X19. A half on which the engine reads nothing but whitespace
    goes through untouched, whatever the corrector backends are (they
    are not asked), and comes out as one blank output page. *)
Theorem blank_half_gives_blank_page self pix raw :
  image_to_string pix spa = Ok raw ->
  is_blank raw = true ->
  half_text pix = Ok raw /\
  layout self raw = [SetFont (font_name self) 11; ShowPage].
Proof.
  intros Hocr Hb. split.
  - unfold Pipeline.half_text, Corrector.correct_spanish_text.
    now rewrite Hocr, Hb.
  - unfold Pipeline.layout, Layout.write_wrapped_page. now rewrite Hb.
Qed.

Local Abbreviation half_raises :=
  (half_raises Matches db utils_correct image_to_string g).

Lemma process_page_half_raises self doc i page s e log :
  nth_error doc i = Some page ->
  half_raises self i page s e ->
  process_page self doc i log =
  (log ++ calls_before_raise self i page s, Raise e).
Proof.
  intros Hn Hr.
  rewrite (process_page_run _ _ _ _ _ _ self doc i page log Hn). cbv zeta.
  unfold PipelineReading.half_raises, Pipeline.half_text in Hr.
  destruct s.
  - destruct (image_to_string (left_pix self i page) spa) as [lraw|e'].
    + rewrite Hr. reflexivity.
    + injection Hr as ->. reflexivity.
  - destruct Hr as [[lt Hl] Hr].
    destruct (image_to_string (left_pix self i page) spa) as [lraw|e'];
      [|discriminate].
    rewrite Hl.
    destruct (image_to_string (right_pix self i page) spa) as [rraw|e'].
    + rewrite Hr. reflexivity.
    + injection Hr as ->. reflexivity.
Qed.

(** X20. An exception of the corrector on a half (a dictionary lookup
    that raises, an interrupt inside the grammar check) ends the run
    just as one of the recognition engine does: after the pages
    before it went through, [process] ends with that exception,
    [save] is not called and the canvas holds the output pages of the
    earlier input pages only. *)
Theorem half_failure_aborts self doc i page s e :
  (start_page self <= i)%nat ->
  nth_error doc i = Some page ->
  (forall j, (start_page self <= j < i)%nat -> page_completes self doc j) ->
  half_raises self i page s e ->
  exists log,
    process self doc = (log, Raise e) /\
    ~ In Save log /\
    filter on_canvas log =
      flat_map (page_layout self doc) (range (start_page self) i).
Proof.
  intros Hs Hn Hpre Hr.
  assert (Hlen : (i < length doc)%nat) by (apply nth_error_Some; congruence).
  assert (Hrun : process self doc =
    ([] ++ flat_map (page_calls self doc) (range (start_page self) i)
        ++ calls_before_raise self i page s, Raise e)).
  { unfold Pipeline.process, bind.
    rewrite (range_split (start_page self) i (length doc)) by lia.
    rewrite (for_each_raises (range (start_page self) i)
               (range (S i) (length doc)) i (process_page self doc)
               (page_calls self doc) (calls_before_raise self i page s) e).
    - reflexivity.
    - intros j log Hj. apply process_page_completes, Hpre.
      apply range_bounds in Hj. lia.
    - intros log. now apply process_page_half_raises. }
  eexists. split; [exact Hrun|]. cbn [app].
  assert (Htail : filter on_canvas (calls_before_raise self i page s) = [] /\
                  ~ In Save (calls_before_raise self i page s)).
  { unfold calls_before_raise. destruct s; cbn; intuition congruence. }
  destruct Htail as [Ht1 Ht2]. split.
  - intros H. apply in_app_or in H as [H|H]; [|exact (Ht2 H)].
    apply in_flat_map in H as (j & _ & H).
    exact (page_calls_no_save _ _ _ _ _ _ self doc j H).
  - now rewrite filter_app, Ht1, app_nil_r, pages_calls_on_canvas.
Qed.

End Run.

(** *** Concrete runs *)

Import Examples MoreExamples.

Lemma renders_only_visited_halves_witness :
  let pix := left_pix (processor true) 1 some_page in
  (exists i,
     (start_page (processor true) <= i < length [some_page; some_page])%nat /\
     half_of (processor true) [some_page; some_page] i pix) /\
  (omit_first (processor true) = true -> pix_page pix <> 0%nat).
Proof.
  intros pix.
  apply (renders_only_visited_halves unit latin1_db keep_text
           Layout.one_segment ocr_hola (Corrector.initial_globals unit)
           (processor true) [some_page; some_page] pix).
  vm_compute. auto.
Defined.

Lemma recognition_in_spanish_after_render_witness :
  let log := fst (run ocr_hola true [some_page; some_page]) in
  let pix := left_pix (processor true) 1 some_page in
  spa = spa /\ In (GetPixmap pix) (firstn 2 log).
Proof.
  intros log pix.
  apply (recognition_in_spanish_after_render unit latin1_db keep_text
           Layout.one_segment ocr_hola (Corrector.initial_globals unit)
           (processor true) [some_page; some_page]
           (firstn 2 log) pix spa (skipn 3 log)).
  vm_compute. reflexivity.
Defined.

Lemma run_of_good_pages_witness :
  let doc := [some_page; some_page] in
  run ocr_hola true doc =
    (flat_map (page_calls unit latin1_db keep_text Layout.one_segment ocr_hola
                 (Corrector.initial_globals unit) (processor true) doc)
       (range 1 2) ++ [Save], Ok tt) /\
  rendered (fst (run ocr_hola true doc)) = flat_map (fun j => [j; j]) (range 1 2) /\
  (2 * (2 - 1) <= pages (fst (run ocr_hola true doc)))%nat.
Proof.
  intros doc.
  apply (run_of_good_pages unit latin1_db keep_text Layout.one_segment ocr_hola
           (Corrector.initial_globals unit) (processor true) doc).
  intros j Hj. cbn in Hj. assert (j = 1%nat) as -> by lia.
  exists some_page, (lit "hola"), (lit "hola"). repeat split; reflexivity.
Defined.

Lemma short_document_only_saves_witness :
  run ocr_hola true [some_page] = ([Save], Ok tt).
Proof.
  apply (short_document_only_saves unit latin1_db keep_text Layout.one_segment
           ocr_hola (Corrector.initial_globals unit) (processor true)
           [some_page]).
  cbn. lia.
Defined.

Lemma blank_half_gives_blank_page_witness :
  let pix := left_pix (processor false) 0 some_page in
  half_text unit latin1_db keep_text ocr_blank both_failing pix = Ok [NL] /\
  layout Layout.one_segment (processor false) [NL]
    = [SetFont helvetica 11; ShowPage].
Proof.
  intros pix.
  apply (blank_half_gives_blank_page unit latin1_db keep_text
           Layout.one_segment ocr_blank both_failing (processor false)
           pix [NL]); reflexivity.
Defined.

Lemma half_failure_aborts_witness :
  exists log,
    run_with_dictionary failing_checker ocr_hola false [some_page]
      = (log, Raise (Exception 2)) /\
    ~ In Save log /\
    filter on_canvas log =
      flat_map (page_layout unit latin1_db keep_text Layout.one_segment ocr_hola
                  (dictionary_only failing_checker) (processor false)
                  [some_page])
               (range 0 0).
Proof.
  apply (half_failure_aborts unit latin1_db keep_text Layout.one_segment
           ocr_hola (dictionary_only failing_checker) (processor false)
           [some_page] 0 some_page Left (Exception 2)).
  - cbn. lia.
  - reflexivity.
  - intros j Hj. cbn in Hj. lia.
  - reflexivity.
Defined.

End PipelineMore.

(* ================================================================== *)
(** ** Facts about the font choice *)

Module FontsFacts.
Import Fonts.

Section Probe.

Variable path_exists : str -> bool.
Variable register_font : str -> str -> result unit.

Local Abbreviation pick_from := (pick_from path_exists register_font).
Local Abbreviation pick_font := (pick_font path_exists register_font).
Local Abbreviation passed_over := (passed_over path_exists register_font).

Lemma pick_from_passed pre rest :
  Forall passed_over pre -> pick_from (pre ++ rest) = pick_from rest.
Proof.
  induction 1 as [|[n p] pre [Hx|[tag Hr]] _ IH]; [reflexivity| |];
    cbn [app Fonts.pick_from]; simpl in *.
  - now rewrite Hx.
  - rewrite Hr. now destruct (path_exists p).
Qed.

Lemma pick_from_names cands :
  (forall tag, pick_from cands <> Raise (Exception tag)) /\
  (forall n, pick_from cands = Ok n ->
             n = Helvetica \/ In n (map fst cands)).
Proof.
  induction cands as [|[name p] rest [IH1 IH2]].
  - split; [discriminate|]. intros n [= <-]. now left.
  - cbn [Fonts.pick_from map fst]. destruct (path_exists p).
    + destruct (register_font name p) as [u|[t|t]].
      * split; [discriminate|]. intros n [= <-]. right. now left.
      * split; [exact IH1|]. intros n H.
        destruct (IH2 n H); [now left|right; now right].
      * split; [discriminate|discriminate].
    + split; [exact IH1|]. intros n H.
      destruct (IH2 n H); [now left|right; now right].
Qed.

Lemma pick_from_fallback cands :
  Forall (fun c => fst c <> Helvetica) cands ->
  pick_from cands = Ok Helvetica -> Forall passed_over cands.
Proof.
  induction 1 as [|[name p] rest Hn _ IH]; [constructor|].
  cbn [Fonts.pick_from]. simpl in Hn.
  destruct (path_exists p) eqn:Ex.
  - destruct (register_font name p) as [u|[t|t]] eqn:Er.
    + intros [= E]. now elim Hn.
    + intros H. constructor; [|now apply IH].
      right. exists t. exact Er.
    + discriminate.
  - intros H. constructor; [now left|now apply IH].
Qed.

(** X21. [pick_font] answers the logical name of the first candidate
    whose file exists and whose registration succeeds; candidates
    before it are passed over because their file is missing or their
    registration raises an [Exception]. *)
Theorem pick_font_takes_first_usable pre name path post u :
  candidates = pre ++ (name, path) :: post ->
  Forall passed_over pre ->
  path_exists path = true ->
  register_font name path = Ok u ->
  pick_font = Ok name.
Proof.
  intros Hc Hpre Hx Hr. unfold Fonts.pick_font. rewrite Hc.
  rewrite pick_from_passed by exact Hpre.
  cbn [Fonts.pick_from]. now rewrite Hx, Hr.
Qed.

(** X22. [pick_font] answers Helvetica exactly when every candidate is
    passed over: no font file exists, or each one that exists fails
    to register with an [Exception]. *)
Theorem pick_font_falls_back_to_helvetica :
  pick_font = Ok Helvetica <-> Forall passed_over candidates.
Proof.
  split.
  - apply pick_from_fallback. repeat constructor; discriminate.
  - intros H. unfold Fonts.pick_font.
    rewrite <- (app_nil_r candidates), pick_from_passed by exact H.
    reflexivity.
Qed.

(** X23. [pick_font] never raises an [Exception], and the name it
    answers is Arial, DejaVuSans, FreeSans or Helvetica. *)
Theorem pick_font_is_safe :
  (forall tag, pick_font <> Raise (Exception tag)) /\
  (forall n, pick_font = Ok n ->
             In n [Arial; DejaVuSans; FreeSans; Helvetica]).
Proof.
  destruct (pick_from_names candidates) as [H1 H2]. split; [exact H1|].
  intros n Hn. destruct (H2 n Hn) as [->|Hin].
  - simpl. auto.
  - simpl in Hin. simpl. intuition.
Qed.

End Probe.

(** the system Arial is taken when the local file is missing *)
Lemma pick_font_takes_first_usable_witness :
  pick_font
    (fun p => str_eqb p (lit "/usr/share/fonts/truetype/msttcorefonts/Arial.ttf"))
    (fun _ _ => Ok tt) = Ok Arial.
Proof.
  apply (pick_font_takes_first_usable
           (fun p => str_eqb p (lit "/usr/share/fonts/truetype/msttcorefonts/Arial.ttf"))
           (fun _ _ => Ok tt)
           [(Arial, lit "Arial.ttf")] Arial
           (lit "/usr/share/fonts/truetype/msttcorefonts/Arial.ttf")
           (skipn 2 candidates) tt).
  - reflexivity.
  - constructor; [left; reflexivity|constructor].
  - reflexivity.
  - reflexivity.
Defined.

End FontsFacts.

(* ================================================================== *)
(** ** Facts about the command line *)

Module CliFacts.
Import Pipeline PipelineReading Cli.

Local Open Scope Q_scope.

Section Main.

Variable Matches : Type.
Variable db : unicode_db.
Variable utils_correct : str -> Matches -> result str.
Variable simpleSplit : str -> str -> Q -> Q -> list str.
Variable image_to_string : Pixmap -> str -> result str.
Variable path_exists : str -> bool.
Variable register_font : str -> str -> result unit.
Variable new_lt : result (Corrector.LanguageTool Matches).
Variable new_spell : result Corrector.SpellChecker.
Variable open_document : str -> result Document.

Local Abbreviation init :=
  (init Matches path_exists register_font new_lt new_spell).
Local Abbreviation main :=
  (main Matches db utils_correct simpleSplit image_to_string path_exists
     register_font new_lt new_spell open_document).

(** what [__init__] puts into the new object *)
Lemma init_fields dpi omit_first g0 processor g :
  init dpi omit_first g0 = Ok (processor, g) ->
  Pipeline.dpi processor = dpi /\ Pipeline.omit_first processor = omit_first.
Proof.
  unfold Cli.init.
  destruct (Corrector.setup_spell_tools _ _ _ _) as [g'|e]; [|discriminate].
  destruct (Fonts.pick_font _ _) as [font|e]; [|discriminate].
  intros [= <- _]. now split.
Qed.

(** X24. Whatever [main] renders, the input path exists, the bitmap is
    scaled by the requested dpi over 72 along both axes and has no
    alpha, and it is not of the first page unless [--keep-first] was
    given; with a missing input nothing is rendered at all. *)
Theorem main_renders_as_asked (args : Args) (pix : Pixmap) :
  In (GetPixmap pix) (fst (main args)) ->
  path_exists (input args) = true /\
  pix_matrix pix = {| scale_x := inject_Z (dpi args) / 72;
                      scale_y := inject_Z (dpi args) / 72 |} /\
  pix_alpha pix = false /\
  (keep_first args = false -> pix_page pix <> 0%nat).
Proof.
  unfold Cli.main.
  destruct (path_exists (input args)) eqn:Hx; [|intros []].
  cbn [negb].
  destruct (init (dpi args) (negb (keep_first args))
              (Corrector.initial_globals Matches)) as [[processor g]|e] eqn:Hi;
    [|intros []].
  destruct (open_document (input args)) as [doc|e]; [|intros []].
  destruct (init_fields _ _ _ _ _ Hi) as [Hdpi Homit].
  intros Hin.
  destruct (PipelineMore.rendered_halves _ _ _ _ _ _ _ _ _ Hin)
    as (i & Hrange & page & _ & Hpix).
  split; [reflexivity|].
  assert (Hm : pix_matrix pix = scale_matrix processor /\
               pix_alpha pix = false /\ pix_page pix = i)
    by (destruct Hpix as [-> | ->]; repeat split).
  destruct Hm as (Hm & Ha & Hp).
  split; [rewrite Hm; unfold scale_matrix; now rewrite Hdpi|].
  split; [exact Ha|].
  intros Hk. rewrite Hp. unfold start_page in Hrange.
  rewrite Homit, Hk in Hrange. simpl in Hrange. lia.
Qed.

(** X25. A run degrades instead of failing: with an existing input
    that opens, no grammar tool, no dictionary and no usable font
    file, and a recognition engine that answers on every half, [main]
    runs [process] in Helvetica with no corrector, ends without an
    exception and calls [save] last. *)
Theorem degraded_run_completes (args : Args) (doc : Document) (a b : nat) :
  path_exists (input args) = true ->
  new_lt = Raise (Exception a) ->
  new_spell = Raise (Exception b) ->
  Forall (Fonts.passed_over path_exists register_font) Fonts.candidates ->
  open_document (input args) = Ok doc ->
  (forall pix lang, exists text, image_to_string pix lang = Ok text) ->
  let g := {| Corrector.USE_LT := false; Corrector.lt_tool := None;
              Corrector.spell := None |} in
  let processor := {| Pipeline.dpi := dpi args;
                      Pipeline.omit_first := negb (keep_first args);
                      Pipeline.font_name := Fonts.Helvetica |} in
  main args =
    Pipeline.process Matches db utils_correct simpleSplit image_to_string
      g processor doc /\
  exists log, main args = (log ++ [Save], Ok tt).
Proof.
  intros Hx Hlt Hsp Hfonts Hopen Hocr g processor.
  assert (Hmain : main args =
    Pipeline.process Matches db utils_correct simpleSplit image_to_string
      g processor doc).
  { unfold Cli.main, Cli.init, Corrector.setup_spell_tools.
    rewrite Hx, Hlt, Hsp. cbn [negb].
    unfold Fonts.pick_font.
    rewrite <- (app_nil_r Fonts.candidates).
    rewrite (FontsFacts.pick_from_passed _ _ _ _ Hfonts).
    cbn [Fonts.pick_from]. rewrite Hopen. reflexivity. }
  split; [exact Hmain|]. rewrite Hmain.
  eexists. apply PipelineMore.process_completes.
  intros j Hj.
  destruct (nth_error doc j) as [page|] eqn:Hn.
  - destruct (Hocr (left_pix processor j page) spa) as [lraw Hl].
    destruct (Hocr (right_pix processor j page) spa) as [rraw Hr].
    exists page,
      (if is_blank lraw then lraw else Normalizer.normalize lraw),
      (if is_blank rraw then rraw else Normalizer.normalize rraw).
    split; [exact Hn|].
    unfold half_text. rewrite Hl, Hr.
    unfold Corrector.correct_spanish_text, Corrector.try_language_tool.
    cbn [Corrector.lt_tool Corrector.spell g].
    split; [destruct (is_blank lraw)|destruct (is_blank rraw)]; reflexivity.
  - apply nth_error_None in Hn. lia.
Qed.

End Main.

Import Examples MoreExamples.

Lemma main_renders_as_asked_witness :
  let pix := left_pix (processor true) 1 some_page in
  sample_exists (input sample_args) = true /\
  pix_matrix pix = {| scale_x := inject_Z (dpi sample_args) / 72;
                      scale_y := inject_Z (dpi sample_args) / 72 |} /\
  pix_alpha pix = false /\
  (keep_first sample_args = false -> pix_page pix <> 0%nat).
Proof.
  intros pix.
  apply (main_renders_as_asked unit latin1_db keep_text Layout.one_segment
           ocr_hola sample_exists (fun _ _ => Ok tt)
           (Raise (Exception 1)) (Raise (Exception 2))
           (fun _ => Ok [some_page; some_page]) sample_args pix).
  vm_compute. auto.
Defined.

Lemma degraded_run_completes_witness :
  let main_run :=
    main unit latin1_db keep_text Layout.one_segment ocr_hola sample_exists
      (fun _ _ => Ok tt) (Raise (Exception 1)) (Raise (Exception 2))
      (fun _ => Ok [some_page; some_page]) sample_args in
  main_run =
    Pipeline.process unit latin1_db keep_text Layout.one_segment ocr_hola
      {| Corrector.USE_LT := false; Corrector.lt_tool := None;
         Corrector.spell := None |}
      {| Pipeline.dpi := 300; Pipeline.omit_first := true;
         Pipeline.font_name := Fonts.Helvetica |}
      [some_page; some_page] /\
  exists log, main_run = (log ++ [Save], Ok tt).
Proof.
  intros main_run.
  apply (degraded_run_completes unit latin1_db keep_text Layout.one_segment
           ocr_hola sample_exists (fun _ _ => Ok tt)
           (Raise (Exception 1)) (Raise (Exception 2))
           (fun _ => Ok [some_page; some_page]) sample_args
           [some_page; some_page] 1 2).
  - reflexivity.
  - reflexivity.
  - reflexivity.
  - repeat constructor.
  - reflexivity.
  - intros pix lang. now exists (lit "hola").
Defined.

End CliFacts.
